(** * SLIM: encoder, decoder and schema utilities

    A shallow embedding of [src/encoder.ts], [src/decoder.ts] and
    [src/schema.ts] (with the constants of [src/types.ts] and [deepEqual]
    of [src/utils.ts]), followed by the properties proved about them.

    Modelling conventions.
    - A JavaScript string is the list of its code units; the code units
      modelled are the 8-bit ones ([ascii]).  Every character the code
      tests for is below 128; [trim] also knows U+00A0.
    - A number is [NaN], an infinity, an integer ([Int z], printed by
      [String] as its decimal numeral, which is what JavaScript does below
      1e21), or the number that [parseFloat] reads from a literal that is
      not a plain integer numeral ([Dec lit]).  [Dec lit] is left
      uninterpreted: its text under [String] is taken to be [lit], and no
      statement below relies on telling two such numbers apart.
    - An object is the list of its own entries in [Object.entries] order,
      keys pairwise distinct; keys are assumed not to be array indices nor
      names inherited from [Object.prototype], so that entry order is
      insertion order and [obj[key]] is an own-property lookup.
    - The decoder's cursor [(str, pos)] is kept as the unread suffix
      [str.substring(pos)]: [peek], [consume], [match], [isEnd] and
      [skipWs] read nothing else of the cursor.
    - The encoder's [depth] counter is kept as the number of levels left
      before [depth > opts.maxDepth]; [encodeValue] restores the source's
      signature.
    - The decoder's unbounded loops take a budget of iterations and calls;
      [None] is returned only when the budget runs out. *)

From Stdlib Require Import Ascii String DecimalString DecimalPos.
From Stdlib Require Import ZArith Arith Lia Bool List.
Import ListNotations.

Local Open Scope list_scope.
Local Open Scope char_scope.

(** ** JavaScript strings and the few library functions the code uses *)

Module Js.

Definition jstring := list ascii.

(** A literal of the source. *)
Definition lit (s : string) : jstring := list_ascii_of_string s.

Definition dquote : ascii := "034".
Definition newline : ascii := "010".
Definition backslash : ascii := "\".

(** [a === b] on strings. *)
Fixpoint streq (a b : jstring) : bool :=
  match a, b with
  | [], [] => true
  | x :: a', y :: b' => Ascii.eqb x y && streq a' b'
  | _, _ => false
  end.

(** A regular-expression character class [[...]] tested on one character. *)
Definition inClass (cls : jstring) (c : ascii) : bool :=
  existsb (Ascii.eqb c) cls.

(** [/[cls]/.test(s)]: some character of [s] is in the class. *)
Definition testClass (cls : jstring) (s : jstring) : bool :=
  existsb (inClass cls) s.

Definition isDigit (c : ascii) : bool :=
  let n := nat_of_ascii c in (48 <=? n)%nat && (n <=? 57)%nat.

(** [/[0-9.eE+\-]/] *)
Definition isNumChar (c : ascii) : bool :=
  isDigit c || inClass (lit ".eE+-") c.

(** The white space and line terminators that [String.prototype.trim]
    strips, among the code units modelled. *)
Definition isTrimSpace (c : ascii) : bool :=
  let n := nat_of_ascii c in
  ((9 <=? n)%nat && (n <=? 13)%nat) || (n =? 32)%nat || (n =? 160)%nat.

(** The characters that [.] of a regular expression does not match. *)
Definition isLineTerminator (c : ascii) : bool :=
  Ascii.eqb c newline || Ascii.eqb c "013".

Fixpoint dropWhile (p : ascii -> bool) (s : jstring) : jstring :=
  match s with
  | [] => []
  | c :: s' => if p c then dropWhile p s' else s
  end.

(** The maximal prefix of characters satisfying [p], and what follows:
    [while (!isEnd() && p(peek())) run += consume()]. *)
Fixpoint span (p : ascii -> bool) (s : jstring) : jstring * jstring :=
  match s with
  | [] => ([], [])
  | c :: s' =>
      if p c then let (run, rest) := span p s' in (c :: run, rest)
      else ([], s)
  end.

(** [s.trim()] *)
Definition trim (s : jstring) : jstring :=
  rev (dropWhile isTrimSpace (rev (dropWhile isTrimSpace s))).

(** [s.replace(/c/g, by)] for a one-character pattern. *)
Definition replaceAll (c : ascii) (by_ : jstring) (s : jstring) : jstring :=
  flat_map (fun x => if Ascii.eqb x c then by_ else [x]) s.

(** [parts.join(sep)] on strings. *)
Fixpoint join (sep : jstring) (parts : list jstring) : jstring :=
  match parts with
  | [] => []
  | [p] => p
  | p :: ps => p ++ sep ++ join sep ps
  end.

(** [s.split(sep)] for a one-character separator; [''.split(',')] is
    [['']]. *)
Fixpoint split (sep : ascii) (s : jstring) : list jstring :=
  match s with
  | [] => [[]]
  | c :: s' =>
      if Ascii.eqb c sep then [] :: split sep s'
      else match split sep s' with
           | p :: ps => (c :: p) :: ps
           | [] => [[c]]
           end
  end.

(** [s.startsWith(c)] and [s.includes(c)] for a one-character argument. *)
Definition startsWith (c : ascii) (s : jstring) : bool :=
  match s with
  | x :: _ => Ascii.eqb x c
  | [] => false
  end.

Definition includes (c : ascii) (s : jstring) : bool :=
  existsb (Ascii.eqb c) s.

(** [String(n)] for an array index or a length. *)
Definition natToString (n : nat) : jstring :=
  lit (NilZero.string_of_uint (Nat.to_uint n)).

(** [new Set(items)] spread back into an array: first occurrences, in
    order. *)
Definition setAdd (seen : list jstring) (k : jstring) : list jstring :=
  if existsb (streq k) seen then seen else seen ++ [k].

Definition setOf (items : list jstring) : list jstring :=
  fold_left setAdd items [].

(** A regular expression of the shape [^(.+?)TAIL$]: the lazy group takes
    the shortest non-empty prefix free of line terminators after which
    [tail] accepts all that is left. *)
Fixpoint lazyName {A : Type} (tail : jstring -> option A)
    (name rest : jstring) : option (jstring * A) :=
  match tail rest with
  | Some a => Some (name, a)
  | None =>
      match rest with
      | [] => None
      | c :: rest' =>
          if isLineTerminator c then None
          else lazyName tail (name ++ [c]) rest'
      end
  end.

Definition matchLazy {A : Type} (tail : jstring -> option A) (s : jstring)
  : option (jstring * A) :=
  match s with
  | [] => None
  | c :: rest => if isLineTerminator c then None else lazyName tail [c] rest
  end.

End Js.

Import Js.

(** ** src/types.ts: values, options, constants *)

Inductive num : Type :=
  | NaN
  | Inf
  | NegInf
  | Int (z : Z)
  | Dec (literal : jstring).

#[warnings="-register-all"]
Inductive SlimValue : Type :=
  | VNull
  | VUndefined
  | VBool (b : bool)
  | VNum (n : num)
  | VText (s : jstring)
  | VList (items : list SlimValue)
  | VRecord (entries : list (jstring * SlimValue)).

Definition SlimObject := list (jstring * SlimValue).

Record EncodeOptions := {
  maxDepth : Z;
  tableThreshold : Z;
  pretty : bool
}.

Record DecodeOptions := { strict : bool }.

Record ColumnDef := {
  name : jstring;
  type : ascii;
  nullable : bool
}.



Definition SLIM_NULL := lit "!null".
Definition SLIM_UNDEFINED := lit "!undef".
Definition SLIM_DEEP := lit "!DEEP".
Definition SLIM_TRUE := lit "?T".
Definition SLIM_FALSE := lit "?F".
Definition SLIM_NAN := lit "#NaN".
Definition SLIM_INF := lit "#Inf".
Definition SLIM_NEG_INF := lit "#-Inf".

(** The class of [STRUCTURAL_CHARS]: comma, semicolon, newline, bar, the
    braces, the square brackets, the double quote, and # ? ! * @. *)
Definition STRUCTURAL_CHARS : jstring :=
  lit ",;" ++ [newline] ++ lit "|{}[]" ++ [dquote] ++ lit "#?!*@".

(** [/[,:{}\[\]]/] *)
Definition KEY_SPECIAL_CHARS : jstring := lit ",:{}[]".

(** ** Values as JavaScript sees them *)

(** [obj[key]]: the own property, or [undefined]. *)
Fixpoint get (obj : SlimObject) (key : jstring) : SlimValue :=
  match obj with
  | [] => VUndefined
  | (k, v) :: obj' => if streq k key then v else get obj' key
  end.

(** [obj[key] = v]: overwrite in place, or append a new property. *)
Fixpoint set (obj : SlimObject) (key : jstring) (v : SlimValue) : SlimObject :=
  match obj with
  | [] => [(key, v)]
  | (k, w) :: obj' =>
      if streq k key then (k, v) :: obj' else (k, w) :: set obj' key v
  end.

(** [Object.keys(obj)] *)
Definition keysOf (obj : SlimObject) : list jstring := map fst obj.

(** [String(n)] on a number. *)
Definition numToString (n : num) : jstring :=
  match n with
  | NaN => lit "NaN"
  | Inf => lit "Infinity"
  | NegInf => lit "-Infinity"
  | Int z => lit (NilZero.string_of_int (Z.to_int z))
  | Dec l => l
  end.

(** [String(v)]; an array prints as [join(',')], in which [null] and
    [undefined] items print as nothing. *)
Fixpoint jsString (v : SlimValue) : jstring :=
  match v with
  | VNull => lit "null"
  | VUndefined => lit "undefined"
  | VBool b => if b then lit "true" else lit "false"
  | VNum n => numToString n
  | VText s => s
  | VList items =>
      join (lit ",")
        (map (fun x => match x with
                       | VNull | VUndefined => []
                       | _ => jsString x
                       end) items)
  | VRecord _ => lit "[object Object]"
  end.

(** [arr.join(sep)] *)
Definition arrayJoin (sep : jstring) (arr : list SlimValue) : jstring :=
  join sep (map (fun x => match x with
                          | VNull | VUndefined => []
                          | _ => jsString x
                          end) arr).

(** The truth value of [v] in a condition. *)
Definition truthy (v : SlimValue) : bool :=
  match v with
  | VNull | VUndefined => false
  | VBool b => b
  | VNum NaN => false
  | VNum (Int z) => negb (Z.eqb z 0)
  | VNum _ => true
  | VText s => negb (streq s [])
  | VList _ | VRecord _ => true
  end.


Definition isNullish (v : SlimValue) : bool :=
  match v with VNull | VUndefined => true | _ => false end.

Definition isBoolean (v : SlimValue) : bool :=
  match v with VBool _ => true | _ => false end.

Definition isNumber (v : SlimValue) : bool :=
  match v with VNum _ => true | _ => false end.


(** [Array.isArray(v)] *)
Definition isArray (v : SlimValue) : bool :=
  match v with VList _ => true | _ => false end.

(** [typeof v === 'object' && !Array.isArray(v)]: [null] passes. *)
Definition isObjectNotArray (v : SlimValue) : bool :=
  match v with VNull | VRecord _ => true | _ => false end.

(** [typeof v === 'object' && v !== null && !Array.isArray(v)] *)
Definition isPlainObject (v : SlimValue) : bool :=
  match v with VRecord _ => true | _ => false end.

(** The cast [v as Record<string, SlimValue>]. *)
Definition entriesOf (v : SlimValue) : SlimObject :=
  match v with VRecord es => es | _ => [] end.

(** The cast [v as SlimValue[]]. *)
Definition itemsOf (v : SlimValue) : list SlimValue :=
  match v with VList items => items | _ => [] end.

(** [colTypes[k]] on the [Record<string, string>] filled by the type loop
    of [encodeTable] and of [inferSchema]. *)
Fixpoint lookupType (colTypes : list (jstring * jstring)) (k : jstring)
  : option jstring :=
  match colTypes with
  | [] => None
  | (k', t) :: rest => if streq k' k then Some t else lookupType rest k
  end.

(** [k + colTypes[k]] *)
Definition columnText (colTypes : list (jstring * jstring)) (k : jstring)
  : jstring :=
  k ++ match lookupType colTypes k with
       | Some t => t
       | None => lit "undefined"
       end.

(** ** src/encoder.ts *)

Module Encoder.

Definition DEFAULT_OPTIONS : EncodeOptions :=
  {| maxDepth := 15; tableThreshold := 1; pretty := false |}.

Definition encodeNumber (n : num) : jstring :=
  match n with
  | NaN => SLIM_NAN
  | Inf => SLIM_INF
  | NegInf => SLIM_NEG_INF
  | _ => lit "#" ++ numToString n
  end.

Definition needsQuoting (str : jstring) : bool :=
  testClass STRUCTURAL_CHARS str || negb (streq str (trim str)).

Definition encodeString (str : jstring) : jstring :=
  if streq str [] then [dquote; dquote]
  else if needsQuoting str then
    let escaped :=
      replaceAll newline [backslash; "n"]
        (replaceAll dquote [dquote; dquote] str) in
    [dquote] ++ escaped ++ [dquote]
  else str.

Definition isMatrix (arr : list SlimValue) : bool :=
  forallb (fun row => isArray row && forallb isNumber (itemsOf row)) arr.

Definition encodeMatrix (matrix : list SlimValue) : jstring :=
  let rows := map (fun row => arrayJoin (lit ",") (itemsOf row)) matrix in
  lit "*[" ++ join (lit ";") rows ++ lit "]".

(** [typeof v === 'string' && !/[,;[\]]/.test(v)] *)
Definition isSimpleString (v : SlimValue) : bool :=
  match v with
  | VText s => negb (testClass (lit ",;[]") s)
  | _ => false
  end.

Definition encodeInlineArray (arr : list SlimValue) : jstring :=
  match arr with
  | [] => lit "[]"
  | _ =>
      if forallb isNumber arr then arrayJoin (lit "+") arr
      else
        join (lit "+")
          (map (fun x =>
                  let s := jsString x in
                  if testClass (lit "+,") s
                  then [dquote] ++ replaceAll dquote [dquote; dquote] s ++ [dquote]
                  else s) arr)
  end.

(** The column type of [key]: the loop body of [encodeTable] that fills
    [colTypes[key]]. *)
Definition columnType (rows : list SlimObject) (key : jstring) : jstring :=
  let values :=
    filter (fun v => negb (isNullish v)) (map (fun r => get r key) rows) in
  let base :=
    match values with
    | [] => lit "!"
    | _ =>
        if forallb isBoolean values then lit "?"
        else if forallb isNumber values then lit "#"
        else if forallb isArray values then lit "@"
        else if forallb isObjectNotArray values then lit "~"
        else lit "$"
    end in
  if existsb (fun r => isNullish (get r key)) rows then base ++ lit "!"
  else base.

(** One cell of a data row; [enc] is [encodeValue(_, depth + 1, opts)]. *)
Definition encodeCell (enc : SlimValue -> jstring)
    (colTypes : list (jstring * jstring)) (obj : SlimObject) (k : jstring)
  : jstring :=
  let v := get obj k in
  let type := lookupType colTypes k in
  let typeStarts c :=
    match type with Some t => startsWith c t | None => false end in
  if isNullish v then []
  else if typeStarts "?" then (if truthy v then lit "T" else lit "F")
  else if typeStarts "#" then jsString v
  else if typeStarts "@" then encodeInlineArray (itemsOf v)
  else if typeStarts "~" then enc v
  else
    match v with
    | VText s =>
        if streq s [] then [dquote; dquote]
        else if testClass ([","; newline; "|"; dquote]) s then
          [dquote]
            ++ replaceAll newline [backslash; "n"]
                 (replaceAll dquote [dquote; dquote] s)
            ++ [dquote]
        else jsString v
    | _ => jsString v
    end.

Definition encodeTable (enc : SlimValue -> jstring) (rows : list SlimObject)
  : jstring :=
  let keys := setOf (flat_map keysOf rows) in
  let colTypes := map (fun key => (key, columnType rows key)) keys in
  let schema := join (lit ",") (map (columnText colTypes) keys) in
  let dataRows :=
    map (fun obj => join (lit ",") (map (encodeCell enc colTypes obj) keys))
        rows in
  lit "|" ++ natToString (length rows) ++ lit "|" ++ schema ++ lit "|"
    ++ [newline] ++ join [newline] dataRows.

(** [arr.length >= opts.tableThreshold && arr.every(isPlainObject)] *)
Definition tableEligible (opts : EncodeOptions) (arr : list SlimValue) : bool :=
  (tableThreshold opts <=? Z.of_nat (length arr))%Z && forallb isPlainObject arr.

Definition encodeArrayWith (enc : SlimValue -> jstring) (opts : EncodeOptions)
    (arr : list SlimValue) : jstring :=
  match arr with
  | [] => lit "@[]"
  | _ =>
      if isMatrix arr then encodeMatrix arr
      else if forallb isNumber arr then
        lit "@#[" ++ arrayJoin (lit ",") arr ++ lit "]"
      else if forallb isSimpleString arr then
        lit "@[" ++ arrayJoin (lit ",") arr ++ lit "]"
      else if tableEligible opts arr then
        encodeTable enc (map entriesOf arr)
      else
        lit "@[" ++ join (lit ";") (map enc arr) ++ lit "]"
  end.

(** [enc] is [encodeValue(_, depth + 1, opts)] and [enc2] is
    [encodeValue(_, depth + 2, opts)], which the inline table called at
    [depth + 1] uses for its cells. *)
Definition encodeObjectWith (enc enc2 : SlimValue -> jstring)
    (opts : EncodeOptions) (obj : SlimObject) : jstring :=
  match obj with
  | [] => lit "{}"
  | _ =>
      let parts :=
        map (fun '(key, value) =>
               let safeKey :=
                 if testClass KEY_SPECIAL_CHARS key
                 then [dquote] ++ replaceAll dquote [dquote; dquote] key ++ [dquote]
                 else key in
               if isArray value && tableEligible opts (itemsOf value)
               then safeKey ++ lit ":" ++ encodeTable enc2 (map entriesOf (itemsOf value))
               else safeKey ++ lit ":" ++ enc value) obj in
      lit "{" ++ join (lit ",") parts ++ lit "}"
  end.

(** [encodeValue] by the number of levels left: [left = 0] is
    [depth > opts.maxDepth]. *)
Fixpoint encodeValueLeft (opts : EncodeOptions) (left : nat) (data : SlimValue)
  : jstring :=
  match left with
  | 0 => SLIM_DEEP
  | S left' =>
      match data with
      | VNull => SLIM_NULL
      | VUndefined => SLIM_UNDEFINED
      | VBool b => if b then SLIM_TRUE else SLIM_FALSE
      | VNum n => encodeNumber n
      | VText s => encodeString s
      | VList arr => encodeArrayWith (encodeValueLeft opts left') opts arr
      | VRecord obj =>
          encodeObjectWith
            (encodeValueLeft opts left')
            (match left' with
             | 0 => fun _ => SLIM_DEEP
             | S left'' => encodeValueLeft opts left''
             end)
            opts obj
      end
  end.

(** The levels left at [depth]. *)
Definition levelsLeft (opts : EncodeOptions) (depth : Z) : nat :=
  Z.to_nat (maxDepth opts + 1 - depth).

Definition encodeValue (data : SlimValue) (depth : Z) (opts : EncodeOptions)
  : jstring :=
  encodeValueLeft opts (levelsLeft opts depth) data.

Definition encodeArray (arr : list SlimValue) (depth : Z) (opts : EncodeOptions)
  : jstring :=
  encodeArrayWith (fun v => encodeValue v (depth + 1) opts) opts arr.

Definition encodeObject (obj : SlimObject) (depth : Z) (opts : EncodeOptions)
  : jstring :=
  encodeObjectWith (fun v => encodeValue v (depth + 1) opts)
                   (fun v => encodeValue v (depth + 2) opts) opts obj.

Definition encode (data : SlimValue) (opts : EncodeOptions) : jstring :=
  encodeValue data 0 opts.

End Encoder.

(** ** src/schema.ts *)

Module Schema.

(** The loop body of [inferSchema] that fills [colTypes[key]]. *)
Definition columnType (data : list SlimObject) (key : jstring) : jstring :=
  let values :=
    filter (fun v => negb (isNullish v)) (map (fun r => get r key) data) in
  let base :=
    match values with
    | [] => lit "!"
    | _ =>
        if forallb isBoolean values then lit "?"
        else if forallb isNumber values then lit "#"
        else if forallb isArray values then lit "@"
        else if forallb isObjectNotArray values then lit "~"
        else lit "$"
    end in
  if existsb (fun r => isNullish (get r key)) data then base ++ lit "!"
  else base.


(** The tail [([#?@~$])?(!)?$] of the column pattern: groups 2 and 3. *)
Definition schemaTail (rest : jstring) : option (option ascii * bool) :=
  match rest with
  | [] => Some (None, false)
  | [c] =>
      if inClass (lit "#?@~$") c then Some (Some c, false)
      else if Ascii.eqb c "!" then Some (None, true)
      else None
  | [c; d] =>
      if inClass (lit "#?@~$") c && Ascii.eqb d "!" then Some (Some c, true)
      else None
  | _ => None
  end.

Definition parseColumn (col : jstring) : ColumnDef :=
  match matchLazy schemaTail col with
  | None => {| name := col; type := "$"; nullable := false |}
  | Some (n, (marker, bang)) =>
      {| name := n;
         type := match marker with Some t => t | None => "$" end;
         nullable := bang |}
  end.








End Schema.

(** ** src/decoder.ts *)

Module Decoder.

Definition DEFAULT_OPTIONS : DecodeOptions := {| strict := false |}.

(** A parser step that cannot loop for ever: a result and the unread
    input. *)
Definition Parsed (A : Type) : Type := (A * jstring)%type.

(** A parser step under a budget: [None] when the budget ran out. *)
Definition Budgeted (A : Type) : Type := option (A * jstring).

Definition bind {A B : Type} (m : Budgeted A) (k : A -> jstring -> Budgeted B)
  : Budgeted B :=
  match m with
  | Some (a, rest) => k a rest
  | None => None
  end.

Notation "'do' ( a , r ) <- m ; k" :=
  (bind m (fun a r => k))
  (at level 10, a name, r name, m at level 100, k at level 200).

(** [peek() === c] *)
Definition peekIs (c : ascii) (rest : jstring) : bool :=
  match rest with
  | x :: _ => Ascii.eqb x c
  | [] => false
  end.

(** [/[cls]/.test(peek())]; [peek()] is the empty string at the end. *)
Definition peekIn (cls : jstring) (rest : jstring) : bool :=
  match rest with
  | x :: _ => inClass cls x
  | [] => false
  end.

Definition isEnd (rest : jstring) : bool :=
  match rest with [] => true | _ => false end.

(** [consume()] for its effect on the cursor. *)
Definition consume (rest : jstring) : jstring := tl rest.

(** [match(s)]: the unread input after [s] when [peek(s.length) === s]. *)
Fixpoint matchStr (s rest : jstring) : option jstring :=
  match s with
  | [] => Some rest
  | c :: s' =>
      match rest with
      | x :: rest' => if Ascii.eqb x c then matchStr s' rest' else None
      | [] => None
      end
  end.

(** [match(s)] called for its effect only. *)
Definition skipStr (s rest : jstring) : jstring :=
  match matchStr s rest with
  | Some rest' => rest'
  | None => rest
  end.

(** [if (peek() === c) consume()] *)
Definition skipChar (c : ascii) (rest : jstring) : jstring :=
  if peekIs c rest then consume rest else rest.

Definition skipWs (rest : jstring) : jstring := dropWhile (Ascii.eqb " ") rest.

(** [parseFloat(s)] on a run of the characters [0-9.eE+-], or on a piece
    that passed the numeric test of an array cell: a plain integer numeral,
    possibly followed by a sign, is read exactly; no numeral at all is
    [NaN]; anything else is a number left uninterpreted. *)
Definition digitValue (c : ascii) : Z := Z.of_nat (nat_of_ascii c) - 48.

Definition digitsValue (ds : jstring) : Z :=
  fold_left (fun acc c => 10 * acc + digitValue c)%Z ds 0%Z.

Definition parseFloat (s : jstring) : num :=
  let '(negative, body) :=
    match s with
    | "-" :: r => (true, r)
    | "+" :: r => (false, r)
    | _ => (false, s)
    end in
  let '(ds, after) := span isDigit body in
  match ds with
  | [] =>
      match after with
      | "." :: d :: _ => if isDigit d then Dec s else NaN
      | _ => NaN
      end
  | _ =>
      if peekIn (lit ".eE") after then Dec s
      else Int (if negative then - digitsValue ds else digitsValue ds)
  end.

(** After the marker [!]. *)
Definition parseNull (rest : jstring) : Parsed SlimValue :=
  match matchStr (lit "null") rest with
  | Some r => (VNull, r)
  | None =>
      match matchStr (lit "undef") rest with
      | Some r => (VUndefined, r)
      | None =>
          match matchStr (lit "DEEP") rest with
          | Some r => (VNull, r)
          | None => (VNull, rest)
          end
      end
  end.

(** [consume() === 'T'] *)
Definition consumeIsT (rest : jstring) : Parsed SlimValue :=
  (VBool (peekIs "T" rest), consume rest).

(** After the marker [#]. *)
Definition parseNumber (rest : jstring) : Parsed num :=
  match matchStr (lit "NaN") rest with
  | Some r => (NaN, r)
  | None =>
      match matchStr (lit "-Inf") rest with
      | Some r => (NegInf, r)
      | None =>
          match matchStr (lit "Inf") rest with
          | Some r => (Inf, r)
          | None => let (run, r) := span isNumChar rest in (parseFloat run, r)
          end
      end
  end.

(** The loop of [parseQuotedString], after the opening quote. *)
Fixpoint quotedBody (rest : jstring) : Parsed jstring :=
  match rest with
  | [] => ([], [])
  | c :: rest' =>
      if Ascii.eqb c dquote then
        match rest' with
        | d :: rest'' =>
            if Ascii.eqb d dquote
            then let (val, r) := quotedBody rest'' in (d :: val, r)
            else ([], rest')
        | [] => ([], [])
        end
      else if Ascii.eqb c backslash then
        match rest' with
        | d :: rest'' =>
            if Ascii.eqb d "n"
            then let (val, r) := quotedBody rest'' in (newline :: val, r)
            else let (val, r) := quotedBody rest' in (c :: val, r)
        | [] => ([c], [])
        end
      else let (val, r) := quotedBody rest' in (c :: val, r)
  end.

Definition parseQuotedString (rest : jstring) : Parsed jstring :=
  quotedBody (consume rest).

(** Stops at the class [,;\n|{}[\]]. *)
Definition unquotedStop : jstring := lit ",;" ++ [newline] ++ lit "|{}[]".

Definition parseUnquoted (rest : jstring) : Parsed jstring :=
  span (fun c => negb (inClass unquotedStop c)) rest.

(** The loop of [parseArray]. *)
Fixpoint arrayItems (parseValue : jstring -> Budgeted SlimValue)
    (budget : nat) (isNumeric : bool) (items : list SlimValue)
    (rest : jstring) : Budgeted (list SlimValue) :=
  match budget with
  | 0 => None
  | S budget' =>
      if isEnd rest || peekIs "]" rest then Some (items, skipStr (lit "]") rest)
      else
        do (items', rest') <-
          (if isNumeric then
             let (run, r) := span isNumChar rest in
             Some (match run with
                   | [] => items
                   | _ => items ++ [VNum (parseFloat run)]
                   end, r)
           else
             do (v, r) <- parseValue rest;
             Some (items ++ [v], r));
        let rest'' :=
          if peekIs "," rest' || peekIs ";" rest' then consume rest' else rest' in
        arrayItems parseValue budget' isNumeric items' rest''
  end.

(** After the marker [@]. *)
Definition parseArray (parseValue : jstring -> Budgeted SlimValue)
    (budget : nat) (rest : jstring) : Budgeted SlimValue :=
  let isNumeric := peekIs "#" rest in
  let rest := if isNumeric then consume rest else rest in
  match matchStr (lit "[") rest with
  | None => Some (VList [], rest)
  | Some rest =>
      if peekIs "]" rest then Some (VList [], consume rest)
      else
        do (items, r) <- arrayItems parseValue budget isNumeric [] rest;
        Some (VList items, r)
  end.

(** [if (currentRow.length > 0) rows.push(currentRow)] *)
Definition pushRow (rows : list SlimValue) (currentRow : list SlimValue)
  : list SlimValue :=
  match currentRow with
  | [] => rows
  | _ => rows ++ [VList currentRow]
  end.

(** The loop of [parseMatrix] and what follows it. *)
Fixpoint matrixRows (budget : nat) (rows currentRow : list SlimValue)
    (rest : jstring) : Budgeted SlimValue :=
  match budget with
  | 0 => None
  | S budget' =>
      if isEnd rest || peekIs "]" rest
      then Some (VList (pushRow rows currentRow), skipStr (lit "]") rest)
      else if peekIs ";" rest
      then matrixRows budget' (pushRow rows currentRow) [] (consume rest)
      else if peekIs "," rest
      then matrixRows budget' rows currentRow (consume rest)
      else if peekIn (lit "0123456789.-") rest
      then let (run, r) := span isNumChar rest in
           matrixRows budget' rows (currentRow ++ [VNum (parseFloat run)]) r
      else Some (VList (pushRow rows currentRow), skipStr (lit "]") rest)
  end.

(** After the marker [*]. *)
Definition parseMatrix (budget : nat) (rest : jstring) : Budgeted SlimValue :=
  match matchStr (lit "[") rest with
  | None => Some (VList [], rest)
  | Some rest => matrixRows budget [] [] rest
  end.

(** The loop of [parseObject] and the closing brace. *)
Fixpoint objectEntries (parseValue : jstring -> Budgeted SlimValue)
    (budget : nat) (obj : SlimObject) (rest : jstring) : Budgeted SlimValue :=
  match budget with
  | 0 => None
  | S budget' =>
      if isEnd rest || peekIs "}" rest
      then Some (VRecord obj, skipStr (lit "}") rest)
      else
        let rest := skipWs rest in
        let '(key, rest) :=
          if peekIs dquote rest then parseQuotedString rest else ([], rest) in
        let '(key, rest) :=
          match key with
          | [] => span (fun c => negb (inClass (lit ":,{}") c)) rest
          | _ => (key, rest)
          end in
        let rest := skipStr (lit ":") rest in
        do (v, rest) <- parseValue rest;
        objectEntries parseValue budget' (set obj key v) (skipChar "," rest)
  end.

Definition parseObject (parseValue : jstring -> Budgeted SlimValue)
    (budget : nat) (rest : jstring) : Budgeted SlimValue :=
  objectEntries parseValue budget [] (skipStr (lit "{") rest).

(** A column of a table header: [name] and the run of markers after it. *)
Record Column := { colName : jstring; colType : jstring }.

(** The tail of the header's column pattern: a run of the markers
    [#?@~$!] up to the end. *)
Definition markersTail (rest : jstring) : option jstring :=
  if forallb (inClass (lit "#?@~$!")) rest then Some rest else None.

Definition parseColumn (col : jstring) : Column :=
  match matchLazy markersTail col with
  | Some (n, t) => {| colName := n; colType := t |}
  | None => {| colName := col; colType := [] |}
  end.

(** [while (peek() !== '|') text += consume()]: at the end of the input
    [peek()] is the empty string, which is not a bar, and [consume()]
    appends nothing. *)
Fixpoint scanToBar (budget : nat) (text : jstring) (rest : jstring)
  : Budgeted jstring :=
  match budget with
  | 0 => None
  | S budget' =>
      match rest with
      | c :: rest' =>
          if Ascii.eqb c "|" then Some (text, rest)
          else scanToBar budget' (text ++ [c]) rest'
      | [] => scanToBar budget' text []
      end
  end.

(** The test for an empty cell. *)
Definition emptyCell (rest : jstring) : bool :=
  peekIs "," rest || peekIs newline rest || isEnd rest || peekIs "}" rest.

(** [/^-?\d+\.?\d*$/.test(x)] *)
Definition isNumericPiece (x : jstring) : bool :=
  let body := match x with "-" :: r => r | _ => x end in
  let '(ds, after) := span isDigit body in
  match ds with
  | [] => false
  | _ => forallb isDigit (match after with "." :: r => r | _ => after end)
  end.

(** The value of one cell: the chain of tests on the column type. *)
Definition parseCell (parseValue : jstring -> Budgeted SlimValue)
    (col : Column) (rest : jstring) : Budgeted SlimValue :=
  if emptyCell rest then
    Some (if includes "!" (colType col) then VNull else VUndefined, rest)
  else if peekIs dquote rest then
    let (s, r) := parseQuotedString rest in Some (VText s, r)
  else if startsWith "#" (colType col) then
    let (run, r) := span isNumChar rest in
    Some (match run with
          | [] => VNull
          | _ => VNum (parseFloat run)
          end, r)
  else if startsWith "?" (colType col) then Some (consumeIsT rest)
  else if startsWith "@" (colType col) then
    let (arrStr, r) :=
      span (fun c => negb (inClass ([","; newline; "}"]) c)) rest in
    if streq arrStr (lit "[]") then Some (VList [], r)
    else
      let elements :=
        filter (fun x => negb (streq x [])) (split "+" arrStr) in
      if forallb isNumericPiece elements
      then Some (VList (map (fun x => VNum (parseFloat x)) elements), r)
      else Some (VList (map VText elements), r)
  else if startsWith "~" (colType col) then parseValue rest
  else if peekIs dquote rest then
    let (s, r) := parseQuotedString rest in Some (VText s, r)
  else
    let (s, r) :=
      span (fun c => negb (inClass ([","; newline; "}"]) c)) rest in
    Some (VText s, r).

(** [val !== undefined && val !== null && val !== ''] *)
Definition hasContent (val : SlimValue) : bool :=
  match val with
  | VUndefined | VNull => false
  | VText s => negb (streq s [])
  | _ => true
  end.

(** The two tests that decide whether the field enters the record. *)
Definition storeCell (obj : SlimObject) (col : Column) (val : SlimValue)
  : SlimObject :=
  if hasContent val then set obj (colName col) val
  else if includes "!" (colType col)
          && match val with VNull => true | _ => false end
  then set obj (colName col) VNull
  else obj.

(** The [for] loop over the columns of one data row; [first] is [i = 0]. *)
Fixpoint rowCells (parseValue : jstring -> Budgeted SlimValue)
    (columns : list Column) (first : bool) (obj : SlimObject)
    (rest : jstring) : Budgeted SlimObject :=
  match columns with
  | [] => Some (obj, rest)
  | col :: columns' =>
      let rest := if negb first then skipChar "," rest else rest in
      do (val, rest) <- parseCell parseValue col rest;
      rowCells parseValue columns' false (storeCell obj col val) rest
  end.

(** The loop over the data rows. *)
Fixpoint tableRows (parseValue : jstring -> Budgeted SlimValue)
    (budget : nat) (columns : list Column) (rows : list SlimValue)
    (rest : jstring) : Budgeted SlimValue :=
  match budget with
  | 0 => None
  | S budget' =>
      if isEnd rest then Some (VList rows, rest)
      else
        let rest := skipChar newline rest in
        if isEnd rest || peekIn (lit "},]") rest then Some (VList rows, rest)
        else
          do (obj, rest) <- rowCells parseValue columns true [] rest;
          let rows := rows ++ [VRecord obj] in
          if peekIs newline rest
          then tableRows parseValue budget' columns rows (consume rest)
          else if negb (peekIn (lit "},]") rest) && negb (isEnd rest)
          then Some (VList rows, rest)
          else tableRows parseValue budget' columns rows rest
  end.

Definition parseTable (parseValue : jstring -> Budgeted SlimValue)
    (budget : nat) (rest : jstring) : Budgeted SlimValue :=
  let rest := skipStr (lit "|") rest in
  do (countStr, rest) <- scanToBar budget [] rest;
  let rest := skipStr (lit "|") rest in
  do (schemaStr, rest) <- scanToBar budget [] rest;
  let rest := skipStr (lit "|") rest in
  let columns := map parseColumn (split "," schemaStr) in
  tableRows parseValue budget columns [] rest.

(** [parseValue] under a budget of nested calls and of iterations of each
    loop. *)
Fixpoint parseValue (budget : nat) (rest : jstring) : Budgeted SlimValue :=
  match budget with
  | 0 => None
  | S budget' =>
      let rest := skipWs rest in
      match rest with
      | [] => Some (VUndefined, rest)
      | ch :: after =>
          if Ascii.eqb ch "!" then Some (parseNull after)
          else if Ascii.eqb ch "?" then Some (consumeIsT after)
          else if Ascii.eqb ch "#" then
            let (n, r) := parseNumber after in Some (VNum n, r)
          else if Ascii.eqb ch "@" then parseArray (parseValue budget') budget' after
          else if Ascii.eqb ch "*" then parseMatrix budget' after
          else if Ascii.eqb ch "{" then parseObject (parseValue budget') budget' rest
          else if Ascii.eqb ch "|" then parseTable (parseValue budget') budget' rest
          else if Ascii.eqb ch dquote then
            let (s, r) := parseQuotedString rest in Some (VText s, r)
          else
            let (s, r) := parseUnquoted rest in Some (VText s, r)
      end
  end.

(** [decode(slim, options)] under a budget: the value returned, or [None]
    when the budget does not suffice. *)
Definition decode (budget : nat) (slim : jstring) (options : DecodeOptions)
  : option SlimValue :=
  match parseValue budget slim with
  | Some (v, _) => Some v
  | None => None
  end.

(** [decode(slim, options)] returns [v]. *)
Definition decodes (slim : jstring) (options : DecodeOptions) (v : SlimValue)
  : Prop :=
  exists budget, decode budget slim options = Some v.

(** [decode(slim, options)] never returns. *)
Definition diverges (slim : jstring) (options : DecodeOptions) : Prop :=
  forall budget, decode budget slim options = None.

End Decoder.

(** ** src/utils.ts: deep equality *)

Module Utils.




(** [Math.ceil(str.length / 4)] *)
Definition estimateTokens (str : jstring) : nat :=
  let n := length str in
  if (n mod 4 =? 0)%nat then (n / 4)%nat else S (n / 4).


(** [parseInt(s, 10)]: leading white space is skipped, a sign is read,
    then the longest run of digits; [None] is [NaN].  The integer is kept
    exact: the only use made of it is as an array index, where the
    rounding of a numeral beyond 2^53 picks another index beyond the end
    of any array. *)
Definition parseInt (s : jstring) : option Z :=
  let s := dropWhile isTrimSpace s in
  let '(negative, body) :=
    match s with
    | "-" :: r => (true, r)
    | "+" :: r => (false, r)
    | _ => (false, s)
    end in
  let '(ds, _) := span isDigit body in
  match ds with
  | [] => None
  | _ =>
      Some (if negative then (- Decoder.digitsValue ds)%Z
            else Decoder.digitsValue ds)
  end.

(** [arr[index]] for an integer index; the indices of an array are below
    2^32 - 1. *)
Definition itemAt (items : list SlimValue) (index : Z) : SlimValue :=
  if ((index <? 0) || (4294967295 <=? index))%Z then VUndefined
  else nth (Z.to_nat index) items VUndefined.

(** The names that every object inherits from [Object.prototype]. *)
Definition inheritedNames : list jstring :=
  [ lit "constructor"; lit "__proto__"; lit "hasOwnProperty";
    lit "isPrototypeOf"; lit "propertyIsEnumerable"; lit "toLocaleString";
    lit "toString"; lit "valueOf"; lit "__defineGetter__";
    lit "__defineSetter__"; lit "__lookupGetter__"; lit "__lookupSetter__" ].

(** [obj[key]] for a key of any origin: the own property; outside the
    values modelled ([None]: a function, or the prototype) under an
    inherited name that the object does not define; [undefined]
    otherwise. *)
Definition lookup (obj : SlimObject) (key : jstring) : option SlimValue :=
  if existsb (streq key) (keysOf obj) then Some (get obj key)
  else if existsb (streq key) inheritedNames then None
  else Some VUndefined.

(** The loop of [getPath] over the parts that are left. *)
Fixpoint walk (current : SlimValue) (parts : list jstring)
  : option SlimValue :=
  match parts with
  | [] => Some current
  | part :: parts' =>
      match current with
      | VNull | VUndefined => Some VUndefined
      | VList items =>
          match parseInt part with
          | None => Some VUndefined
          | Some index => walk (itemAt items index) parts'
          end
      | VRecord obj =>
          match lookup obj part with
          | None => None
          | Some next => walk next parts'
          end
      | _ => Some VUndefined
      end
  end.

(** [getPath(value, path)]; [None] when the walk leaves the values
    modelled. *)
Definition getPath (value : SlimValue) (path : jstring) : option SlimValue :=
  match value with
  | VList _ | VRecord _ => walk value (split "." path)
  | _ => Some VUndefined
  end.






End Utils.

(** ** src/stream.ts *)

Module Stream.

(** The state behind [createEncoder(options)]: the options and the
    buffer. *)
Record SlimEncoder := {
  encoderOptions : EncodeOptions;
  encoderBuffer : list SlimObject
}.

Definition createEncoder (options : EncodeOptions) : SlimEncoder :=
  {| encoderOptions := options; encoderBuffer := [] |}.

(** [encoder.write(obj)] *)
Definition encoderWrite (e : SlimEncoder) (obj : SlimObject) : SlimEncoder :=
  {| encoderOptions := encoderOptions e;
     encoderBuffer := encoderBuffer e ++ [obj] |}.

(** [encoder.end()] *)
Definition encoderEnd (e : SlimEncoder) : jstring :=
  match encoderBuffer e with
  | [] => lit "@[]"
  | buffer => Encoder.encode (VList (map VRecord buffer)) (encoderOptions e)
  end.

(** [encoder.size()] *)
Definition encoderSize (e : SlimEncoder) : nat := length (encoderBuffer e).

(** The state behind [createDecoder(options)]. *)
Record SlimDecoder := {
  decoderOptions : DecodeOptions;
  decoderBuffer : jstring
}.




(** [decoder.hasPending()] *)
Definition hasPending (d : SlimDecoder) : bool :=
  (0 <? length (trim (decoderBuffer d)))%nat.

(** [encodeStream(objects, options)] on an iterable that yields the items
    of [objects] and ends. *)
Definition encodeStream (objects : list SlimObject) (options : EncodeOptions)
  : jstring :=
  match objects with
  | [] => lit "@[]"
  | buffer => Encoder.encode (VList (map VRecord buffer)) options
  end.






(** [collect(iterable)] on an iterable that yields the items of [items]
    and ends. *)
Definition collect {A : Type} (items : list A) : list A :=
  fold_left (fun result item => result ++ [item]) items [].

End Stream.

Import Encoder Schema Decoder Utils Stream.

(** * The vocabulary of the specification *)

(** The characters that force quoting, as the specification lists them. *)
Definition quoteTriggers : jstring :=
  [","; ";"; newline; "|"; "{"; "}"; "["; "]"; dquote; "#"; "?"; "!"; "*"; "@"].

Definition leadingSpace (s : jstring) : Prop :=
  exists c r, s = c :: r /\ isTrimSpace c = true.

Definition trailingSpace (s : jstring) : Prop :=
  exists r c, s = r ++ [c] /\ isTrimSpace c = true.

(** The quoting condition of the specification. *)
Definition mustQuote (s : jstring) : Prop :=
  s = []
  \/ (exists c, In c s /\ In c quoteTriggers)
  \/ leadingSpace s
  \/ trailingSpace s.

(** The escape of one character inside quotes, as the specification words
    it. *)
Definition escapeChar (c : ascii) : jstring :=
  if Ascii.eqb c dquote then [dquote; dquote]
  else if Ascii.eqb c newline then [backslash; "n"]
  else [c].

Definition quoted (s : jstring) : jstring :=
  [dquote] ++ flat_map escapeChar s ++ [dquote].







Definition marioAndLuigi : SlimValue :=
  VList
    [ VRecord [ (lit "id", VNum (Int 1));
                (lit "name", VText (lit "Mario"));
                (lit "active", VBool true) ];
      VRecord [ (lit "id", VNum (Int 2));
                (lit "name", VText (lit "Luigi"));
                (lit "active", VBool false) ] ].






















(** [p'] returns whatever [p] returns. *)
Definition extends (p p' : jstring -> Budgeted SlimValue) : Prop :=
  forall s r, p s = Some r -> p' s = Some r.




Definition countedTable : jstring :=
  lit "id#|" ++ [newline] ++ lit "1" ++ [newline] ++ lit "2".

(** The characters of an unsigned decimal numeral. *)
Definition digitsOf (d : Decimal.uint) : jstring :=
  lit (NilEmpty.string_of_uint d).

(** What may follow an encoded value inside a list or a record: nothing,
    or a separator or closing bracket. *)
Definition followOK (rest : jstring) : bool :=
  match rest with
  | [] => true
  | c :: _ => inClass (lit ",;}]") c
  end.




Definition intValue (z : Z) : SlimValue := VNum (Int z).

Definition intText (z : Z) : jstring := numToString (Int z).













(** What may follow a value bound to a key of a record, and so a table: a
    comma, a closing brace, or the end of the input. *)
Definition tableFollow (rest : jstring) : bool :=
  match rest with
  | [] => true
  | c :: _ => inClass (lit ",}") c
  end.


(** A text that an unquoted list item gives back: not empty, not started
    by a space or a marker, free of the characters that end an unquoted
    text. *)
Definition bareOK (t : jstring) : bool :=
  match t with
  | [] => false
  | c :: _ =>
      negb (Ascii.eqb c " ")
      && negb (inClass (lit "!?#@*{|" ++ [dquote]) c)
      && negb (testClass unquotedStop t)
  end.

(** The key as [encodeObject] writes it. *)
Definition safeKey (key : jstring) : jstring :=
  if testClass KEY_SPECIAL_CHARS key
  then [dquote] ++ replaceAll dquote [dquote; dquote] key ++ [dquote]
  else key.






(** The nesting depth of a value: the number of lists and records around
    its innermost item. *)
Fixpoint depth (v : SlimValue) : nat :=
  match v with
  | VList items => S (list_max (map depth items))
  | VRecord entries =>
      S (list_max (map (fun kv => match kv with (_, x) => depth x end) entries))
  | _ => 0
  end.










Definition nestedSample : SlimValue :=
  VRecord
    [ (lit "name", VText (lit "Morning Run"));
      (lit "note", VText (lit "laps: 3, pace ok"));
      (lit "key:colon", VBool true);
      (lit "points", VList [ VList [VNum (Int 45); VNum (Int 9)];
                             VList [VNum (Int (-46)); VNum (Int 10)] ]);
      (lit "laps", VList [VNum (Int 1); VNum (Int 2); VNum (Int 3)]);
      (lit "tags", VList [VText (lit "a"); VText (lit "b c")]);
      (lit "users",
       VList [ VRecord [ (lit "id", VNum (Int 1));
                         (lit "name", VText (lit "Alice, A."));
                         (lit "active", VBool true);
                         (lit "email", VNull) ];
               VRecord [ (lit "id", VNum (Int 2));
                         (lit "name", VText (lit "Bob"));
                         (lit "active", VBool false);
                         (lit "email", VText (lit "bob@example.com")) ] ]);
      (lit "mixed", VList [VNull; VUndefined; VNum NaN; VText [];
                           VRecord [(lit "deep", VList [])]]) ].



(** [r] is what is left of [rest] after reading a prefix. *)
Definition suffixOf (r rest : jstring) : Prop := exists pre, rest = pre ++ r.

(** No array marker and no bar. *)
Definition plain (s : jstring) : bool :=
  forallb (fun c => negb (inClass (lit "@|") c)) s.

(** The key of an entry and the input after its colon, as the loop of
    [parseObject] reads them. *)
Definition entryKey (rest : jstring) : jstring * jstring :=
  let rest := skipWs rest in
  let '(key, rest) :=
    if peekIs dquote rest then parseQuotedString rest else ([], rest) in
  let '(key, rest) :=
    match key with
    | [] => span (fun c => negb (inClass (lit ":,{}") c)) rest
    | _ => (key, rest)
    end in
  (key, skipStr (lit ":") rest).

(** What a call of [parseValue] may be relied on for: it returns, leaving
    a suffix of its input, shorter when the input starts with an opening
    brace. *)
Definition returnsOn (p : jstring -> Budgeted SlimValue) (rest : jstring)
  : Prop :=
  exists v r, p rest = Some (v, r)
              /\ suffixOf r rest
              /\ (peekIs "{" rest = true -> length r < length rest).

(** A row of a decoded matrix: a list of numbers, not empty. *)
Definition numberRow (row : SlimValue) : Prop :=
  exists ns, ns <> [] /\ row = VList (map VNum ns).








Definition streamRows : list SlimObject :=
  [ [(lit "id", VNum (Int 1)); (lit "name", VText (lit "Mario"));
     (lit "active", VBool true)];
    [(lit "id", VNum (Int 2)); (lit "name", VText (lit "Luigi"));
     (lit "active", VBool false)];
    [(lit "id", VNum (Int 3)); (lit "name", VText (lit "Peach"));
     (lit "active", VBool true)] ].



Definition andThen (m : option SlimValue) (k : SlimValue -> option SlimValue)
  : option SlimValue :=
  match m with
  | Some w => k w
  | None => None
  end.




(** * Properties *)

(** ** Facts about the string helpers *)

Section StringFacts.

Lemma streq_spec (a b : jstring) : streq a b = true <-> a = b.
Proof.
  revert b; induction a as [|x a IH]; intros [|y b]; simpl;
    try (split; [discriminate | congruence]); try tauto.
  rewrite andb_true_iff, Ascii.eqb_eq, IH.
  split; [intros [-> ->]; reflexivity | intros H; inversion H; auto].
Qed.


Lemma streq_false (a b : jstring) : streq a b = false <-> a <> b.
Proof.
  rewrite <- streq_spec. destruct (streq a b); split; congruence.
Qed.


Lemma inClass_In (cls : jstring) (c : ascii) : inClass cls c = true <-> In c cls.
Proof.
  unfold inClass. rewrite existsb_exists. split.
  - intros (x & Hx & E). apply Ascii.eqb_eq in E. subst; assumption.
  - intros H. exists c. split; [assumption | apply Ascii.eqb_refl].
Qed.

Lemma testClass_spec (cls s : jstring) :
  testClass cls s = true <-> exists c, In c s /\ In c cls.
Proof.
  unfold testClass. rewrite existsb_exists.
  split; intros (c & H1 & H2); exists c; split; auto; apply inClass_In; auto.
Qed.

Lemma dropWhile_length (p : ascii -> bool) (s : jstring) :
  length (dropWhile p s) <= length s.
Proof.
  induction s as [|c s IH]; simpl; [lia|]. destruct (p c); simpl; lia.
Qed.

Lemma dropWhile_head_false (p : ascii -> bool) (c : ascii) (s : jstring) :
  p c = false -> dropWhile p (c :: s) = c :: s.
Proof. intros H; simpl; rewrite H; reflexivity. Qed.

Lemma replaceAll_app (c : ascii) (by_ a b : jstring) :
  replaceAll c by_ (a ++ b) = replaceAll c by_ a ++ replaceAll c by_ b.
Proof. unfold replaceAll. apply flat_map_app. Qed.

End StringFacts.

(** ** Text encoding *)

Section TextEncoding.

Lemma escape_two_passes (s : jstring) :
  replaceAll newline [backslash; "n"] (replaceAll dquote [dquote; dquote] s)
  = flat_map escapeChar s.
Proof.
  induction s as [|c s IH]; [reflexivity|].
  change (replaceAll dquote [dquote; dquote] (c :: s))
    with ((if Ascii.eqb c dquote then [dquote; dquote] else [c])
            ++ replaceAll dquote [dquote; dquote] s).
  rewrite replaceAll_app, IH. simpl. unfold escapeChar.
  destruct (Ascii.eqb c dquote) eqn:E; [reflexivity|].
  simpl. destruct (Ascii.eqb c newline); reflexivity.
Qed.

Lemma trim_leading (c : ascii) (r : jstring) :
  isTrimSpace c = true -> trim (c :: r) <> c :: r.
Proof.
  intros H E. apply (f_equal (@length ascii)) in E.
  unfold trim in E. rewrite length_rev in E.
  pose proof (dropWhile_length isTrimSpace (rev (dropWhile isTrimSpace (c :: r)))) as L1.
  rewrite length_rev in L1. simpl in E, L1. rewrite H in E, L1.
  pose proof (dropWhile_length isTrimSpace r). simpl in *. lia.
Qed.

Lemma trim_trailing (r : jstring) (c : ascii) :
  isTrimSpace c = true -> trim (r ++ [c]) <> r ++ [c].
Proof.
  intros H E. apply (f_equal (@length ascii)) in E.
  unfold trim in E. rewrite length_rev in E.
  destruct (dropWhile isTrimSpace (r ++ [c])) as [|x t] eqn:D.
  - simpl in E. rewrite length_app in E. simpl in E. lia.
  - assert (exists t', x :: t = t' ++ [c]) as (t' & Ht').
    { clear E. revert x t D. induction r as [|y r IH]; simpl; intros x t D.
      - rewrite H in D. discriminate.
      - destruct (isTrimSpace y).
        + eapply IH; eassumption.
        + inversion D; subst. exists (x :: r). reflexivity. }
    rewrite Ht', rev_app_distr in E. simpl in E. rewrite H in E.
    pose proof (dropWhile_length isTrimSpace (rev t')) as L.
    rewrite length_rev in L.
    pose proof (dropWhile_length isTrimSpace (r ++ [c])) as L2.
    rewrite D, Ht' in L2. rewrite !length_app in *. simpl in *. lia.
Qed.

Lemma trim_fixed (s : jstring) :
  ~ leadingSpace s -> ~ trailingSpace s -> trim s = s.
Proof.
  intros HL HT. unfold trim.
  assert (dropWhile isTrimSpace s = s) as ->.
  { destruct s as [|c r]; [reflexivity|].
    apply dropWhile_head_false. destruct (isTrimSpace c) eqn:E; [|reflexivity].
    exfalso. apply HL. exists c, r. auto. }
  destruct (rev s) as [|c r] eqn:R.
  - rewrite <- (rev_involutive s), R. reflexivity.
  - rewrite dropWhile_head_false.
    + rewrite <- R. apply rev_involutive.
    + destruct (isTrimSpace c) eqn:E; [|reflexivity].
      exfalso. apply HT. exists (rev r), c. split; [|assumption].
      rewrite <- (rev_involutive s), R. reflexivity.
Qed.

Lemma trim_changes (s : jstring) :
  streq s (trim s) = false <-> leadingSpace s \/ trailingSpace s.
Proof.
  rewrite streq_false. split.
  - intros N.
    destruct s as [|c r]; [exfalso; apply N; reflexivity|].
    destruct (isTrimSpace c) eqn:E; [left; exists c, r; auto|].
    right.
    destruct (rev (c :: r)) as [|x t] eqn:R.
    { apply (f_equal (@length ascii)) in R. rewrite length_rev in R. discriminate. }
    destruct (isTrimSpace x) eqn:Ex.
    + exists (rev t), x. split; [|assumption].
      rewrite <- (rev_involutive (c :: r)), R. reflexivity.
    + exfalso. apply N. unfold trim.
      rewrite (dropWhile_head_false _ _ _ E), R, (dropWhile_head_false _ _ _ Ex).
      rewrite <- R. symmetry. apply rev_involutive.
  - intros [(c & r & -> & H) | (r & c & -> & H)] E; symmetry in E.
    + revert E. apply trim_leading; assumption.
    + revert E. apply trim_trailing; assumption.
Qed.

Lemma needsQuoting_spec (s : jstring) :
  needsQuoting s = true
  <-> (exists c, In c s /\ In c quoteTriggers) \/ leadingSpace s \/ trailingSpace s.
Proof.
  unfold needsQuoting. rewrite orb_true_iff, negb_true_iff, trim_changes.
  rewrite testClass_spec. reflexivity.
Qed.

Lemma mustQuote_dec (s : jstring) :
  mustQuote s <-> (streq s [] || needsQuoting s) = true.
Proof.
  unfold mustQuote. rewrite orb_true_iff, streq_spec, needsQuoting_spec.
  reflexivity.
Qed.

Lemma encodeString_quoted (s : jstring) :
  mustQuote s -> encodeString s = quoted s.
Proof.
  intros H. apply mustQuote_dec in H. unfold encodeString, quoted.
  destruct (streq s []) eqn:E.
  - apply streq_spec in E. subst. reflexivity.
  - simpl in H. rewrite H, escape_two_passes. reflexivity.
Qed.

Lemma encodeString_raw (s : jstring) :
  ~ mustQuote s -> encodeString s = s.
Proof.
  intros H. rewrite mustQuote_dec in H. unfold encodeString.
  destruct (streq s []); [exfalso; apply H; reflexivity|].
  destruct (needsQuoting s); [exfalso; apply H; reflexivity|].
  reflexivity.
Qed.

(** C5. [encode] quotes a Text exactly when it is empty, holds one of the
    characters [, ; newline | { } [ ] double-quote # ? ! * @], or starts or
    ends with white space; the quoted form doubles every double quote,
    writes every newline as backslash-n and copies every other character;
    the empty Text is two double quotes. *)
Theorem encode_text_quoting (s : jstring) :
  encode (VText s) Encoder.DEFAULT_OPTIONS = encodeString s
  /\ (mustQuote s <-> encodeString s = quoted s)
  /\ (~ mustQuote s -> encodeString s = s)
  /\ encodeString [] = [dquote; dquote].
Proof.
  split; [reflexivity|]. split; [|split].
  - split; [apply encodeString_quoted|].
    intros E. destruct (streq s [] || needsQuoting s) eqn:D.
    + apply mustQuote_dec; assumption.
    + assert (~ mustQuote s) as N by (rewrite mustQuote_dec, D; discriminate).
      rewrite (encodeString_raw s N) in E.
      exfalso. apply N. right. left. exists dquote. split.
      * rewrite E. left. reflexivity.
      * unfold quoteTriggers. simpl. tauto.
  - apply encodeString_raw.
  - reflexivity.
Qed.

End TextEncoding.

(** ** The encoder's recursion, as the source writes it *)

Section EncoderEquations.

Lemma levelsLeft_deep (opts : EncodeOptions) (depth : Z) :
  (depth >? maxDepth opts)%Z = true -> levelsLeft opts depth = 0.
Proof. unfold levelsLeft. intros H. apply Z.gtb_lt in H. lia. Qed.

Lemma levelsLeft_step (opts : EncodeOptions) (depth : Z) :
  (depth >? maxDepth opts)%Z = false ->
  levelsLeft opts depth = S (levelsLeft opts (depth + 1)).
Proof.
  unfold levelsLeft. intros H.
  assert (depth <= maxDepth opts)%Z.
  { destruct (Z.gtb_spec depth (maxDepth opts)); [discriminate | assumption]. }
  lia.
Qed.

Lemma levelsLeft_pred (opts : EncodeOptions) (depth : Z) :
  levelsLeft opts (depth + 2) = pred (levelsLeft opts (depth + 1)).
Proof. unfold levelsLeft. lia. Qed.

(** [encodeValue] unfolds to the body of the source function. *)
Lemma encodeValue_unfold (data : SlimValue) (depth : Z) (opts : EncodeOptions) :
  encodeValue data depth opts =
  if (depth >? maxDepth opts)%Z then SLIM_DEEP
  else match data with
       | VNull => SLIM_NULL
       | VUndefined => SLIM_UNDEFINED
       | VBool b => if b then SLIM_TRUE else SLIM_FALSE
       | VNum n => encodeNumber n
       | VText s => encodeString s
       | VList arr => encodeArray arr depth opts
       | VRecord obj => encodeObject obj depth opts
       end.
Proof.
  unfold encodeValue.
  destruct (depth >? maxDepth opts)%Z eqn:D.
  - rewrite (levelsLeft_deep _ _ D). reflexivity.
  - rewrite (levelsLeft_step _ _ D).
    destruct data; try reflexivity.
    unfold encodeObject, encodeValue. rewrite levelsLeft_pred.
    simpl. destruct (levelsLeft opts (depth + 1)); reflexivity.
Qed.

Lemma encode_list (arr : list SlimValue) (opts : EncodeOptions) :
  (0 <= maxDepth opts)%Z -> encode (VList arr) opts = encodeArray arr 0 opts.
Proof.
  intros H. unfold encode. rewrite encodeValue_unfold.
  destruct (Z.gtb_spec 0 (maxDepth opts)); [lia | reflexivity].
Qed.

End EncoderEquations.

(** ** The choice of an array form *)

Section ArrayForms.








Lemma arrayJoin_numbers (sep : jstring) (ns : list num) :
  arrayJoin sep (map VNum ns) = join sep (map numToString ns).
Proof. unfold arrayJoin. rewrite map_map. reflexivity. Qed.

Lemma arrayJoin_texts (sep : jstring) (ts : list jstring) :
  arrayJoin sep (map VText ts) = join sep ts.
Proof. unfold arrayJoin. rewrite map_map, map_id. reflexivity. Qed.






End ArrayForms.

(** ** Tables and schemas *)

Section TableHeader.

(** C3. The two records [{id:1,name:Mario,active:true}] and
    [{id:2,name:Luigi,active:false}] encode as the header
    [|2|id#,name$,active?|], a newline, the line [1,Mario,T], a newline and
    the line [2,Luigi,F]. *)
Theorem encode_mario_table :
  encode marioAndLuigi Encoder.DEFAULT_OPTIONS
  = lit "|2|id#,name$,active?|" ++ [newline]
      ++ lit "1,Mario,T" ++ [newline]
      ++ lit "2,Luigi,F".
Proof. vm_compute. reflexivity. Qed.



End TableHeader.

(** ** Schema validation *)

Section Validation.








End Validation.

(** ** Schema inference read back by [parseSchema] *)

Section SchemaRoundTrip.













Lemma schemaTail_long (d x y : ascii) (r : jstring) :
  schemaTail (d :: x :: y :: r) = None.
Proof. reflexivity. Qed.













End SchemaRoundTrip.

(** ** The decoder's budget *)

Section Budget.

Lemma bind_some {A B : Type} (m : Budgeted A) (k : A -> jstring -> Budgeted B)
    (r : B * jstring) :
  Decoder.bind m k = Some r ->
  exists a rest, m = Some (a, rest) /\ k a rest = Some r.
Proof.
  destruct m as [[a rest]|]; simpl; [|discriminate].
  intros H. exists a, rest. auto.
Qed.

Lemma scanToBar_mono (b b' : nat) (text rest : jstring) (r : jstring * jstring) :
  b <= b' -> scanToBar b text rest = Some r -> scanToBar b' text rest = Some r.
Proof.
  revert b' text rest. induction b as [|b IH]; intros b' text rest L H;
    [discriminate|].
  destruct b' as [|b']; [lia|]. cbn [scanToBar] in *.
  destruct rest as [|c rest'].
  - apply IH; [lia | assumption].
  - destruct (Ascii.eqb c "|"); [assumption|]. apply IH; [lia | assumption].
Qed.

Lemma arrayItems_mono (p p' : jstring -> Budgeted SlimValue) (b b' : nat)
    (isNumeric : bool) (items : list SlimValue) (rest : jstring)
    (r : list SlimValue * jstring) :
  extends p p' -> b <= b' ->
  arrayItems p b isNumeric items rest = Some r ->
  arrayItems p' b' isNumeric items rest = Some r.
Proof.
  intros E. revert b' items rest.
  induction b as [|b IH]; intros b' items rest L H; [discriminate|].
  destruct b' as [|b']; [lia|]. cbn [arrayItems] in *.
  destruct (isEnd rest || peekIs "]" rest); [assumption|].
  apply bind_some in H as (items' & rest' & H1 & H2).
  assert (L' : b <= b') by lia.
  destruct isNumeric.
  - rewrite H1. cbn [Decoder.bind]. apply IH; assumption.
  - apply bind_some in H1 as (v & r1 & Hv & H1).
    rewrite (E _ _ Hv). cbn [Decoder.bind]. inversion H1; subst. apply IH; assumption.
Qed.

Lemma matrixRows_mono (b b' : nat) (rows currentRow : list SlimValue)
    (rest : jstring) (r : SlimValue * jstring) :
  b <= b' ->
  matrixRows b rows currentRow rest = Some r ->
  matrixRows b' rows currentRow rest = Some r.
Proof.
  revert b' rows currentRow rest.
  induction b as [|b IH]; intros b' rows currentRow rest L H; [discriminate|].
  destruct b' as [|b']; [lia|]. cbn [matrixRows] in *.
  assert (L' : b <= b') by lia.
  destruct (isEnd rest || peekIs "]" rest); [assumption|].
  destruct (peekIs ";" rest); [apply IH; assumption|].
  destruct (peekIs "," rest); [apply IH; assumption|].
  destruct (peekIn (lit "0123456789.-") rest); [|assumption].
  destruct (span isNumChar rest). apply IH; assumption.
Qed.

Lemma objectEntries_mono (p p' : jstring -> Budgeted SlimValue) (b b' : nat)
    (obj : SlimObject) (rest : jstring) (r : SlimValue * jstring) :
  extends p p' -> b <= b' ->
  objectEntries p b obj rest = Some r ->
  objectEntries p' b' obj rest = Some r.
Proof.
  intros E. revert b' obj rest.
  induction b as [|b IH]; intros b' obj rest L H; [discriminate|].
  destruct b' as [|b']; [lia|]. cbn [objectEntries] in *.
  destruct (isEnd rest || peekIs "}" rest); [assumption|].
  destruct (if peekIs dquote (skipWs rest)
            then parseQuotedString (skipWs rest)
            else ([], skipWs rest)) as [key rest1].
  destruct (match key with
            | [] => span (fun c => negb (inClass (lit ":,{}") c)) rest1
            | _ => (key, rest1)
            end) as [key' rest2].
  apply bind_some in H as (v & rest3 & Hv & H).
  rewrite (E _ _ Hv). cbn [Decoder.bind]. apply IH; [lia | assumption].
Qed.

Lemma parseCell_mono (p p' : jstring -> Budgeted SlimValue) (col : Column)
    (rest : jstring) (r : SlimValue * jstring) :
  extends p p' ->
  parseCell p col rest = Some r -> parseCell p' col rest = Some r.
Proof.
  intros E. unfold parseCell.
  repeat match goal with
         | |- context [if ?c then _ else _] => destruct c; try (intros H; exact H)
         | |- context [let (_, _) := ?x in _] => destruct x
         end.
  apply E.
Qed.

Lemma rowCells_mono (p p' : jstring -> Budgeted SlimValue)
    (columns : list Column) (first : bool) (obj : SlimObject) (rest : jstring)
    (r : SlimObject * jstring) :
  extends p p' ->
  rowCells p columns first obj rest = Some r ->
  rowCells p' columns first obj rest = Some r.
Proof.
  intros E. revert first obj rest.
  induction columns as [|col columns IH]; intros first obj rest H;
    [assumption|].
  cbn [rowCells] in *. apply bind_some in H as (val & rest' & Hc & H).
  rewrite (parseCell_mono _ _ _ _ _ E Hc). cbn [Decoder.bind]. apply IH. assumption.
Qed.

Lemma tableRows_mono (p p' : jstring -> Budgeted SlimValue) (b b' : nat)
    (columns : list Column) (rows : list SlimValue) (rest : jstring)
    (r : SlimValue * jstring) :
  extends p p' -> b <= b' ->
  tableRows p b columns rows rest = Some r ->
  tableRows p' b' columns rows rest = Some r.
Proof.
  intros E. revert b' rows rest.
  induction b as [|b IH]; intros b' rows rest L H; [discriminate|].
  destruct b' as [|b']; [lia|]. cbn [tableRows] in *.
  assert (L' : b <= b') by lia.
  destruct (isEnd rest); [assumption|].
  destruct (isEnd (skipChar newline rest)
            || peekIn (lit "},]") (skipChar newline rest)); [assumption|].
  apply bind_some in H as (obj & rest' & Hr & H).
  rewrite (rowCells_mono _ _ _ _ _ _ _ E Hr). cbn [Decoder.bind].
  destruct (peekIs newline rest'); [apply IH; assumption|].
  destruct (negb (peekIn (lit "},]") rest') && negb (isEnd rest'));
    [assumption | apply IH; assumption].
Qed.

Lemma parseTable_mono (p p' : jstring -> Budgeted SlimValue) (b b' : nat)
    (rest : jstring) (r : SlimValue * jstring) :
  extends p p' -> b <= b' ->
  parseTable p b rest = Some r -> parseTable p' b' rest = Some r.
Proof.
  intros E L H. unfold parseTable in *.
  apply bind_some in H as (countStr & rest1 & H1 & H).
  apply bind_some in H as (schemaStr & rest2 & H2 & H).
  rewrite (scanToBar_mono _ _ _ _ _ L H1). cbn [Decoder.bind].
  rewrite (scanToBar_mono _ _ _ _ _ L H2). cbn [Decoder.bind].
  eapply tableRows_mono; eassumption.
Qed.

Lemma parseArray_mono (p p' : jstring -> Budgeted SlimValue) (b b' : nat)
    (rest : jstring) (r : SlimValue * jstring) :
  extends p p' -> b <= b' ->
  parseArray p b rest = Some r -> parseArray p' b' rest = Some r.
Proof.
  intros E L H. unfold parseArray in *.
  destruct (matchStr (lit "[") _); [|assumption].
  destruct (peekIs "]" j); [assumption|].
  apply bind_some in H as (items & r1 & H1 & H).
  rewrite (arrayItems_mono _ _ _ _ _ _ _ _ E L H1). assumption.
Qed.

(** A larger budget returns the same result. *)
Lemma parseValue_mono (b b' : nat) :
  b <= b' -> extends (parseValue b) (parseValue b').
Proof.
  revert b'. induction b as [|b IH]; intros b' L s r H; [discriminate|].
  destruct b' as [|b']; [lia|].
  assert (L' : b <= b') by lia. specialize (IH b' L').
  cbn [parseValue] in *. destruct (skipWs s) as [|ch after]; [assumption|].
  repeat match goal with
         | |- context [if Ascii.eqb ch ?c then _ else _] =>
             destruct (Ascii.eqb ch c); [first [assumption | revert H]|]
         end; try assumption.
  - apply parseArray_mono; assumption.
  - unfold parseMatrix. destruct (matchStr (lit "[") after); [|auto].
    apply matrixRows_mono; assumption.
  - apply objectEntries_mono; assumption.
  - apply parseTable_mono; assumption.
Qed.



(** A call that never returns returns no value, and conversely. *)
Lemma diverges_iff (slim : jstring) (options : DecodeOptions) :
  diverges slim options <-> ~ exists v, decodes slim options v.
Proof.
  unfold diverges, decodes. split.
  - intros D (v & b & H). rewrite D in H. discriminate.
  - intros N b. destruct (decode b slim options) as [v|] eqn:E; [|reflexivity].
    exfalso. apply N. exists v, b. assumption.
Qed.

(** ** Table headers *)

Lemma scanToBar_stuck (b : nat) (text rest : jstring) :
  ~ In "|" rest -> scanToBar b text rest = None.
Proof.
  revert text rest. induction b as [|b IH]; intros text rest N; [reflexivity|].
  cbn [scanToBar]. destruct rest as [|c rest'].
  - apply IH. assumption.
  - destruct (Ascii.eqb c "|") eqn:E.
    + apply Ascii.eqb_eq in E. subst. exfalso. apply N. left. reflexivity.
    + apply IH. intros H. apply N. right. assumption.
Qed.

Lemma scanToBar_run (b : nat) (text d rest : jstring) :
  ~ In "|" d -> length d < b ->
  scanToBar b text (d ++ "|" :: rest) = Some (text ++ d, "|" :: rest).
Proof.
  revert b text. induction d as [|c d IH]; intros b text N L.
  - destruct b; [simpl in L; lia|]. rewrite app_nil_r. reflexivity.
  - destruct b; [simpl in L; lia|].
    cbn [app scanToBar].
    destruct (Ascii.eqb c "|") eqn:E.
    + apply Ascii.eqb_eq in E. subst. exfalso. apply N. left. reflexivity.
    + rewrite IH.
      * rewrite <- app_assoc. reflexivity.
      * intros H. apply N. right. assumption.
      * simpl in L. lia.
Qed.

Lemma digits_no_bar (d : jstring) : forallb isDigit d = true -> ~ In "|" d.
Proof.
  intros H N. rewrite forallb_forall in H. specialize (H _ N). discriminate.
Qed.

(** With budget for the scan, the text of the count plays no part. *)
Lemma parseTable_count (p : jstring -> Budgeted SlimValue) (b : nat)
    (d rest : jstring) :
  ~ In "|" d -> length d < b ->
  parseTable p b ("|" :: d ++ "|" :: rest) = parseTable p b ("|" :: "|" :: rest).
Proof.
  intros N L. unfold parseTable.
  change (skipStr (lit "|") ("|" :: d ++ "|" :: rest)) with (d ++ "|" :: rest).
  change (skipStr (lit "|") ("|" :: "|" :: rest)) with ([] ++ "|" :: rest).
  rewrite (scanToBar_run b [] d rest N L).
  rewrite (scanToBar_run b [] [] rest) by (simpl; tauto || lia).
  reflexivity.
Qed.

Lemma parseValue_table (b : nat) (rest : jstring) :
  parseValue (S b) ("|" :: rest) = parseTable (parseValue b) b ("|" :: rest).
Proof. reflexivity. Qed.

Lemma parseValue_count (d1 d2 rest : jstring) (r : SlimValue * jstring) :
  ~ In "|" d1 -> ~ In "|" d2 ->
  (exists b, parseValue b ("|" :: d1 ++ "|" :: rest) = Some r) ->
  exists b, parseValue b ("|" :: d2 ++ "|" :: rest) = Some r.
Proof.
  intros N1 N2 (b & H).
  set (big := S (b + length d1 + length d2)).
  apply (parseValue_mono b (S big)) in H; [|unfold big; lia].
  exists (S big). rewrite parseValue_table in *.
  rewrite parseTable_count in H by (auto; unfold big; lia).
  rewrite parseTable_count by (auto; unfold big; lia).
  assumption.
Qed.

(** C9. The row count of a table header is read and dropped: two inputs
    that differ only in the digits between the first and the second bar of
    the header decode to the same value, and where the table is parsed as
    part of a larger value the parser resumes with the same value at the
    same place. *)
Theorem table_count_ignored
    (d1 d2 rest : jstring) (options : DecodeOptions) (v : SlimValue)
    (unread : jstring) :
  forallb isDigit d1 = true ->
  forallb isDigit d2 = true ->
  (decodes ("|" :: d1 ++ "|" :: rest) options v
   <-> decodes ("|" :: d2 ++ "|" :: rest) options v)
  /\ ((exists b, parseValue b ("|" :: d1 ++ "|" :: rest) = Some (v, unread))
      <-> (exists b, parseValue b ("|" :: d2 ++ "|" :: rest) = Some (v, unread))).
Proof.
  intros D1 D2. apply digits_no_bar in D1, D2.
  assert (forall a c w,
            ~ In "|" a -> ~ In "|" c ->
            decodes ("|" :: a ++ "|" :: rest) options w ->
            decodes ("|" :: c ++ "|" :: rest) options w) as step.
  { intros a c w Na Nc (b & H). unfold decode in H.
    destruct (parseValue b ("|" :: a ++ "|" :: rest)) as [[w' r]|] eqn:P;
      [|discriminate].
    destruct (parseValue_count a c rest (w', r) Na Nc) as (b' & P').
    - exists b. assumption.
    - exists b'. unfold decode. rewrite P'. assumption. }
  split; split; try (apply step; assumption);
    apply parseValue_count; assumption.
Qed.

(** A header without a closing bar: the scan for it never ends. *)
Lemma decode_open_count (s : jstring) (options : DecodeOptions) :
  ~ In "|" s -> diverges ("|" :: s) options.
Proof.
  intros N [|b]; [reflexivity|]. unfold decode.
  rewrite parseValue_table. unfold parseTable.
  change (skipStr (lit "|") ("|" :: s)) with s.
  rewrite scanToBar_stuck by assumption. reflexivity.
Qed.

(** A header whose schema is not closed. *)
Lemma decode_open_schema (d s : jstring) (options : DecodeOptions) :
  ~ In "|" d -> ~ In "|" s -> diverges ("|" :: d ++ "|" :: s) options.
Proof.
  intros Nd Ns [|b]; [reflexivity|]. unfold decode.
  rewrite parseValue_table. unfold parseTable.
  change (skipStr (lit "|") ("|" :: d ++ "|" :: s)) with (d ++ "|" :: s).
  destruct (scanToBar b [] (d ++ "|" :: s)) as [[countStr rest]|] eqn:Scan;
    [|reflexivity].
  assert (b <= Nat.max b (S (length d))) as L by lia.
  pose proof (scanToBar_mono _ _ _ _ _ L Scan) as S'.
  rewrite (scanToBar_run _ [] d s Nd) in S' by lia.
  inversion S'; subst. cbn [Decoder.bind].
  change (skipStr (lit "|") ("|" :: s)) with s.
  rewrite scanToBar_stuck by assumption. reflexivity.
Qed.

(** C2, at the inputs where it fails: a table header whose closing bars are
    missing.  No budget makes [decode] return on [|2] nor on [|2|id#]. *)
Theorem decode_open_header_never_returns (options : DecodeOptions) :
  diverges (lit "|2") options /\ diverges (lit "|2|id#") options.
Proof.
  split.
  - apply (decode_open_count (lit "2")).
    intros [H|[]]. discriminate.
  - apply (decode_open_schema (lit "2") (lit "id#")).
    + intros [H|[]]. discriminate.
    + intros H. repeat (destruct H as [H|H]; [discriminate|]). destruct H.
Qed.

End Budget.

(** ** Table cells *)

Section TableCells.





Lemma table_count_ignored_witness :
  forallb isDigit (lit "2") = true
  /\ forallb isDigit (lit "15") = true
  /\ decodes ("|" :: lit "2" ++ "|" :: countedTable) Decoder.DEFAULT_OPTIONS
       (VList [ VRecord [(lit "id", VNum (Int 1))];
                VRecord [(lit "id", VNum (Int 2))] ])
  /\ (decodes ("|" :: lit "2" ++ "|" :: countedTable) Decoder.DEFAULT_OPTIONS
        (VList [ VRecord [(lit "id", VNum (Int 1))];
                 VRecord [(lit "id", VNum (Int 2))] ])
      <-> decodes ("|" :: lit "15" ++ "|" :: countedTable) Decoder.DEFAULT_OPTIONS
            (VList [ VRecord [(lit "id", VNum (Int 1))];
                     VRecord [(lit "id", VNum (Int 2))] ])).
Proof.
  split; [reflexivity|]. split; [reflexivity|]. split.
  - exists 30. reflexivity.
  - exact (proj1 (table_count_ignored (lit "2") (lit "15") countedTable
                    Decoder.DEFAULT_OPTIONS
                    (VList [ VRecord [(lit "id", VNum (Int 1))];
                             VRecord [(lit "id", VNum (Int 2))] ])
                    [] eq_refl eq_refl)).
Defined.

End TableCells.

(** ** Integers in decimal *)

Section Decimal.

Lemma digitsOf_cons (d : Decimal.uint) :
  d <> Decimal.Nil ->
  exists c r, digitsOf d = c :: r /\ isDigit c = true.
Proof.
  destruct d; intros N; try congruence;
    (eexists; eexists; split; [reflexivity | reflexivity]).
Qed.

Lemma digitsOf_digits (d : Decimal.uint) : forallb isDigit (digitsOf d) = true.
Proof.
  induction d; try reflexivity; unfold digitsOf in *; simpl;
    assumption.
Qed.

Lemma digitsValue_acc (d : Decimal.uint) (p : positive) :
  fold_left (fun acc c => 10 * acc + digitValue c)%Z (digitsOf d) (Zpos p)
  = Zpos (Pos.of_uint_acc d p).
Proof.
  revert p. induction d; intros p; try reflexivity;
    unfold digitsOf in *; cbn [NilEmpty.string_of_uint lit list_ascii_of_string
                               fold_left Pos.of_uint_acc];
    rewrite <- IHd; f_equal;
    match goal with
    | |- context [digitValue ?c] =>
        let v := eval vm_compute in (digitValue c) in
        change (digitValue c) with v
    end; lia.
Qed.

Lemma digitsValue_of_uint (d : Decimal.uint) :
  digitsValue (digitsOf d) = Z.of_N (Pos.of_uint d).
Proof.
  unfold digitsValue. induction d; try reflexivity;
    unfold digitsOf in *; cbn [NilEmpty.string_of_uint lit list_ascii_of_string
                               fold_left Pos.of_uint];
    try exact IHd; apply (digitsValue_acc d).
Qed.

Lemma numToString_pos (p : positive) :
  numToString (Int (Zpos p)) = digitsOf (Pos.to_uint p).
Proof.
  unfold numToString, digitsOf. cbn [Z.to_int NilZero.string_of_int].
  unfold NilZero.string_of_uint.
  pose proof (DecimalPos.Unsigned.to_uint_nonnil p) as N.
  destruct (Pos.to_uint p); try reflexivity. congruence.
Qed.

Lemma numToString_neg (p : positive) :
  numToString (Int (Zneg p)) = "-" :: digitsOf (Pos.to_uint p).
Proof.
  unfold numToString, digitsOf. cbn [Z.to_int NilZero.string_of_int].
  unfold NilZero.string_of_uint.
  pose proof (DecimalPos.Unsigned.to_uint_nonnil p) as N.
  destruct (Pos.to_uint p); try reflexivity. congruence.
Qed.

(** The shape of the numeral of an integer: an optional minus sign and a
    non-empty run of digits that reads back as the absolute value. *)
Lemma numToString_int (z : Z) :
  exists ds,
    ds <> [] /\ forallb isDigit ds = true /\ digitsValue ds = Z.abs z
    /\ numToString (Int z) = (if (z <? 0)%Z then ["-"] else []) ++ ds.
Proof.
  destruct z as [|p|p].
  - exists (lit "0"). repeat split; discriminate.
  - exists (digitsOf (Pos.to_uint p)).
    destruct (digitsOf_cons _ (DecimalPos.Unsigned.to_uint_nonnil p))
      as (c & r & E & _).
    split; [rewrite E; discriminate|]. split; [apply digitsOf_digits|]. split.
    + rewrite digitsValue_of_uint, DecimalPos.Unsigned.of_to. reflexivity.
    + apply numToString_pos.
  - exists (digitsOf (Pos.to_uint p)).
    destruct (digitsOf_cons _ (DecimalPos.Unsigned.to_uint_nonnil p))
      as (c & r & E & _).
    split; [rewrite E; discriminate|]. split; [apply digitsOf_digits|]. split.
    + rewrite digitsValue_of_uint, DecimalPos.Unsigned.of_to. reflexivity.
    + apply numToString_neg.
Qed.

End Decimal.

(** ** Decoding what the encoder wrote: scalars *)

Section ScalarRoundTrip.

Lemma span_app (p : ascii -> bool) (s rest : jstring) :
  forallb p s = true ->
  match rest with [] => true | c :: _ => negb (p c) end = true ->
  span p (s ++ rest) = (s, rest).
Proof.
  intros Hs Hr. induction s as [|c s IH]; simpl in *.
  - destruct rest as [|d r]; [reflexivity|].
    simpl. apply negb_true_iff in Hr. rewrite Hr. reflexivity.
  - apply andb_true_iff in Hs as [Hc Hs]. rewrite Hc, (IH Hs). reflexivity.
Qed.

Lemma followOK_not (cls : jstring) (rest : jstring) :
  followOK rest = true ->
  (forall c, In c (lit ",;}]") -> inClass cls c = false) ->
  match rest with [] => true | c :: _ => negb (inClass cls c) end = true.
Proof.
  destruct rest as [|c r]; [reflexivity|]. unfold followOK.
  intros F H. apply negb_true_iff. apply H. apply inClass_In. exact F.
Qed.


Lemma isDigit_numChar (ds : jstring) :
  forallb isDigit ds = true -> forallb isNumChar ds = true.
Proof.
  rewrite !forallb_forall. intros H c Hc. unfold isNumChar.
  rewrite (H c Hc). reflexivity.
Qed.

Lemma isDigit_cases (c : ascii) :
  isDigit c = true -> In c (lit "0123456789").
Proof.
  destruct c as [[] [] [] [] [] [] [] []]; simpl; intros H;
    try discriminate; tauto.
Qed.

Lemma parseFloat_digits (negative : bool) (ds : jstring) :
  ds <> [] -> forallb isDigit ds = true ->
  parseFloat ((if negative then ["-"] else []) ++ ds)
  = Int (if negative then - digitsValue ds else digitsValue ds).
Proof.
  intros NE D.
  assert (span isDigit ds = (ds, [])) as S.
  { rewrite <- (app_nil_r ds) at 1. apply span_app; auto. }
  destruct negative; cbn [app].
  - unfold parseFloat. rewrite S. destruct ds; [congruence | reflexivity].
  - destruct ds as [|c r]; [congruence|].
    assert (In c (lit "0123456789")) as Hc.
    { apply isDigit_cases. simpl in D. apply andb_true_iff in D. tauto. }
    simpl in Hc.
    repeat (destruct Hc as [<-|Hc];
            [unfold parseFloat; cbv beta iota; rewrite S; reflexivity|]).
    destruct Hc.
Qed.

Lemma parseFloat_int (z : Z) : parseFloat (numToString (Int z)) = Int z.
Proof.
  destruct (numToString_int z) as (ds & NE & D & V & ->).
  rewrite parseFloat_digits by assumption. rewrite V.
  destruct (Z.ltb_spec z 0); f_equal; lia.
Qed.

Lemma numToString_numChars (z : Z) :
  forallb isNumChar (numToString (Int z)) = true.
Proof.
  destruct (numToString_int z) as (ds & NE & D & V & ->).
  rewrite forallb_app, (isDigit_numChar ds D).
  destruct (z <? 0)%Z; reflexivity.
Qed.

(** The numeral starts with a digit, or with a minus sign and a digit. *)
Lemma numToString_head (z : Z) :
  exists c r, numToString (Int z) = c :: r
              /\ (isDigit c = true
                  \/ (c = "-"%char /\ exists d r', r = d :: r' /\ isDigit d = true)).
Proof.
  destruct (numToString_int z) as (ds & NE & D & V & ->).
  destruct ds as [|d r']; [congruence|]. simpl in D.
  apply andb_true_iff in D as [Dd _].
  destruct (z <? 0)%Z; cbn [app].
  - exists "-"%char, (d :: r'). split; [reflexivity|]. right.
    split; [reflexivity|]. exists d, r'. auto.
  - exists d, r'. split; [reflexivity | left; assumption].
Qed.





Lemma inClass_false_cons (c x : ascii) (cls : jstring) :
  inClass (x :: cls) c = false -> Ascii.eqb c x = false /\ inClass cls c = false.
Proof. unfold inClass. simpl. apply orb_false_iff. Qed.

(** A first character that is neither a space nor a marker starts an
    unquoted text. *)
Lemma parseValue_plain (b : nat) (c : ascii) (s : jstring) :
  Ascii.eqb c " " = false ->
  inClass (lit "!?#@*{|" ++ [dquote]) c = false ->
  parseValue (S b) (c :: s)
  = let (t, r) := parseUnquoted (c :: s) in Some (VText t, r).
Proof.
  intros W M. cbn [parseValue skipWs dropWhile].
  rewrite (Ascii.eqb_sym " " c), W.
  repeat (apply inClass_false_cons in M as [E M]; rewrite E; clear E).
  reflexivity.
Qed.


Lemma testClass_false (cls s : jstring) :
  testClass cls s = false -> forall c, In c s -> inClass cls c = false.
Proof.
  unfold testClass. intros H c Hc.
  destruct (inClass cls c) eqn:E; [|reflexivity].
  assert (existsb (inClass cls) s = true) as X
    by (apply existsb_exists; exists c; auto).
  congruence.
Qed.






End ScalarRoundTrip.

(** ** Decoding what the encoder wrote: lists of numbers *)

Section NumberLists.

Lemma intText_cons (z : Z) : exists c r, intText z = c :: r.
Proof.
  destruct (numToString_head z) as (c & r & E & _). exists c, r. exact E.
Qed.

Lemma intText_head_class (z : Z) (tail : jstring) :
  peekIn (lit "0123456789.-") (intText z ++ tail) = true
  /\ peekIs "]" (intText z ++ tail) = false
  /\ peekIs ";" (intText z ++ tail) = false
  /\ peekIs "," (intText z ++ tail) = false
  /\ isEnd (intText z ++ tail) = false.
Proof.
  destruct (numToString_head z) as (c & r & E & H). unfold intText.
  rewrite E. cbn [app peekIn peekIs isEnd].
  destruct H as [H|(-> & _)]; [|repeat split; reflexivity].
  apply isDigit_cases in H. simpl in H.
  repeat (destruct H as [<-|H]; [repeat split; reflexivity|]). destruct H.
Qed.

Lemma span_intText (z : Z) (tail : jstring) :
  match tail with [] => true | c :: _ => negb (isNumChar c) end = true ->
  span isNumChar (intText z ++ tail) = (intText z, tail).
Proof. intros H. apply span_app; [apply numToString_numChars | exact H]. Qed.

Lemma parseFloat_intText (z : Z) : parseFloat (intText z) = Int z.
Proof. apply parseFloat_int. Qed.

Lemma push_int (items : list SlimValue) (z : Z) :
  match intText z with
  | [] => items
  | _ :: _ => items ++ [VNum (parseFloat (intText z))]
  end = items ++ [intValue z].
Proof.
  rewrite parseFloat_intText.
  destruct (intText_cons z) as (c & r & ->). reflexivity.
Qed.





End NumberLists.

(** ** Tables: what the encoder writes *)

Section TableText.









End TableText.

(** ** Decoding what the encoder wrote: lists and records *)

Section Containers.











Lemma skipChar_hit (c : ascii) (r : jstring) : skipChar c (c :: r) = r.
Proof. unfold skipChar, peekIs. rewrite Ascii.eqb_refl. reflexivity. Qed.


End Containers.

(** ** Tables: what the decoder reads *)

Section TableCellsBack.







Lemma hasContent_text (t : jstring) : t <> [] -> hasContent (VText t) = true.
Proof. destruct t; [congruence | reflexivity]. Qed.


End TableCellsBack.

(** ** Tables: rows and header *)

Section TableRowsBack.

Lemma join_head (sep e : jstring) (es : list jstring) :
  exists t, join sep (e :: es) = e ++ t.
Proof.
  destruct es as [|e' es'].
  - exists []. symmetry. apply app_nil_r.
  - exists (sep ++ join sep (e' :: es')). reflexivity.
Qed.






Lemma tableRows_end (p : jstring -> Budgeted SlimValue) (b : nat)
    (columns : list Column) (rows : list SlimValue) (rest : jstring) :
  tableFollow rest = true ->
  tableRows p (S b) columns rows rest = Some (VList rows, rest).
Proof.
  destruct rest as [|c r]; [reflexivity|]. unfold tableFollow. intros H.
  apply inClass_In in H. simpl in H.
  repeat (destruct H as [<-|H]; [reflexivity|]). destruct H.
Qed.




End TableRowsBack.

(** ** Tables: the header, and the table as a whole *)

Section TableBack.


























End TableBack.

(** ** Round trip *)

Section RoundTrip.

Variable opts : EncodeOptions.



Lemma depth_item (x : SlimValue) (items : list SlimValue) :
  In x items -> depth x <= list_max (map depth items).
Proof.
  intros H.
  assert (Forall (fun k => k <= list_max (map depth items)) (map depth items))
    as F by (apply list_max_le; lia).
  rewrite Forall_forall in F. apply F. apply in_map. assumption.
Qed.

Lemma depth_entry (k : jstring) (x : SlimValue) (entries : SlimObject) :
  In (k, x) entries ->
  depth x <= list_max (map (fun kv => match kv with (_, y) => depth y end) entries).
Proof.
  intros H.
  set (f := fun kv : jstring * SlimValue => match kv with (_, y) => depth y end).
  assert (Forall (fun n => n <= list_max (map f entries)) (map f entries))
    as F by (apply list_max_le; lia).
  rewrite Forall_forall in F. apply (F (f (k, x))). apply in_map. assumption.
Qed.







Lemma bareOK_head (t : jstring) :
  bareOK t = true -> exists c r, t = c :: r /\ Ascii.eqb c "]" = false.
Proof.
  destruct t as [|c r]; [discriminate|]. intros B. exists c, r.
  split; [reflexivity|]. unfold bareOK in B.
  apply andb_true_iff in B as [_ B]. apply negb_true_iff in B.
  pose proof (testClass_false _ _ B c (or_introl eq_refl)) as H.
  destruct (Ascii.eqb c "]") eqn:X; [|reflexivity].
  apply Ascii.eqb_eq in X. subst c. discriminate.
Qed.




Lemma encodeArrayWith_list (enc : SlimValue -> jstring) (items : list SlimValue) :
  items <> [] ->
  encodeArrayWith enc opts items
  = if isMatrix items then encodeMatrix items
    else if forallb isNumber items
         then lit "@#[" ++ arrayJoin (lit ",") items ++ lit "]"
    else if forallb isSimpleString items
         then lit "@[" ++ arrayJoin (lit ",") items ++ lit "]"
    else if tableEligible opts items
         then encodeTable enc (map entriesOf items)
    else lit "@[" ++ join (lit ";") (map enc items) ++ lit "]".
Proof. destruct items; [congruence | reflexivity]. Qed.

Lemma parseValue_array (b : nat) (x : jstring) :
  parseValue (S b) ("@" :: x) = parseArray (parseValue b) b x.
Proof. reflexivity. Qed.



Lemma parseArray_numeric (p : jstring -> Budgeted SlimValue) (b : nat)
    (x : jstring) :
  peekIs "]" x = false ->
  parseArray p b ("#" :: "[" :: x)
  = Decoder.bind (arrayItems p b true [] x) (fun items r => Some (VList items, r)).
Proof.
  intros H. unfold parseArray. cbn [peekIs consume tl matchStr lit
                                    list_ascii_of_string].
  change (Ascii.eqb "#" "#") with true. cbv iota.
  cbn [consume tl matchStr]. change (Ascii.eqb "[" "[") with true. cbv iota.
  rewrite H. reflexivity.
Qed.

Lemma parseArray_general (p : jstring -> Budgeted SlimValue) (b : nat)
    (x : jstring) :
  peekIs "]" x = false ->
  parseArray p b ("[" :: x)
  = Decoder.bind (arrayItems p b false [] x) (fun items r => Some (VList items, r)).
Proof.
  intros H. unfold parseArray. cbn [peekIs consume tl matchStr lit
                                    list_ascii_of_string].
  change (Ascii.eqb "[" "#") with false. cbv iota.
  cbn [matchStr]. change (Ascii.eqb "[" "[") with true. cbv iota.
  rewrite H. reflexivity.
Qed.





End RoundTrip.

(** ** Deep equality of a value with itself *)

Section DeepEqual.







End DeepEqual.

(** ** The round trip *)

Section RoundTripTheorem.




End RoundTripTheorem.

(** ** Further inputs on which the round trip or the decoder breaks *)

Section FurtherInputs.

(** A quoted text with a backslash followed by n: [a\n,] needs quotes for
    its comma, the backslash is written as it is, and the decoder reads
    backslash-n as a newline. *)
Lemma decode_encode_backslash_n :
  encode (VText [ "a"; backslash; "n"; "," ]) Encoder.DEFAULT_OPTIONS
  = [ dquote; "a"; backslash; "n"; ","; dquote ]
  /\ decode 1 [ dquote; "a"; backslash; "n"; ","; dquote ]
       Decoder.DEFAULT_OPTIONS
     = Some (VText [ "a"; newline; "," ]).
Proof. split; reflexivity. Qed.

Lemma arrayItems_numeric_stuck (p : jstring -> Budgeted SlimValue) (b : nat)
    (items : list SlimValue) :
  arrayItems p b true items (lit "NaN]") = None.
Proof.
  revert items. induction b as [|b IH]; intros items; [reflexivity|].
  cbn [arrayItems]. apply IH.
Qed.

(** The list [[NaN]] is written [@#[NaN]], on which [decode] never returns:
    the numeric path of [parseArray] consumes nothing at [N]. *)
Lemma decode_encode_nan_list_never_returns (options : DecodeOptions) :
  encode (VList [VNum NaN]) Encoder.DEFAULT_OPTIONS = lit "@#[NaN]"
  /\ diverges (lit "@#[NaN]") options.
Proof.
  split; [reflexivity|]. intros [|b]; [reflexivity|].
  unfold decode. change (lit "@#[NaN]") with ("@" :: "#" :: "[" :: lit "NaN]").
  rewrite parseValue_array, parseArray_numeric by reflexivity.
  rewrite arrayItems_numeric_stuck. reflexivity.
Qed.

(** A column of mixed kinds falls back to Text: the number 1 comes back as
    the text [1]. *)
Lemma decode_encode_mixed_column :
  decode 20
    (encode (VList [ VRecord [(lit "a", VNum (Int 1))];
                     VRecord [(lit "a", VText (lit "x"))] ])
       Encoder.DEFAULT_OPTIONS)
    Decoder.DEFAULT_OPTIONS
  = Some (VList [ VRecord [(lit "a", VText (lit "1"))];
                  VRecord [(lit "a", VText (lit "x"))] ]).
Proof. reflexivity. Qed.

(** A value nested deeper than [maxDepth] is cut to [!DEEP], which reads
    back as Null. *)
Lemma decode_encode_too_deep :
  encode (VList [VList [VText []]])
    {| maxDepth := 0; tableThreshold := 1; pretty := false |}
  = lit "@[!DEEP]"
  /\ decode 5 (lit "@[!DEEP]") Decoder.DEFAULT_OPTIONS = Some (VList [VNull]).
Proof. split; reflexivity. Qed.

(** A table row whose first cell is empty ends the table: the record
    [{a: null, b: 1}] is written as the row [,1], at which the decoder
    stops with no row read. *)
Lemma decode_encode_null_first_cell :
  encode (VList [VRecord [(lit "a", VNull); (lit "b", VNum (Int 1))]])
    Encoder.DEFAULT_OPTIONS
  = lit "|1|a!!,b#|" ++ [newline] ++ lit ",1"
  /\ decode 30 (lit "|1|a!!,b#|" ++ [newline] ++ lit ",1")
       Decoder.DEFAULT_OPTIONS
     = Some (VList []).
Proof. split; reflexivity. Qed.

(** An empty text in a table is written as two double quotes and left out
    of the record that is read back. *)
Lemma decode_encode_empty_text_cell :
  encode (VList [VRecord [(lit "a", VText [])]]) Encoder.DEFAULT_OPTIONS
  = lit "|1|a$|" ++ [newline; dquote; dquote]
  /\ decode 30 (lit "|1|a$|" ++ [newline; dquote; dquote])
       Decoder.DEFAULT_OPTIONS
     = Some (VList [VRecord []]).
Proof. split; reflexivity. Qed.

(** A table as an item of a list: its last text cell runs over the
    semicolon and the items that follow. *)
Lemma decode_encode_table_item :
  encode (VList [VList [VRecord [(lit "a", VText (lit "x"))]]; VNum (Int 1)])
    Encoder.DEFAULT_OPTIONS
  = lit "@[|1|a$|" ++ [newline] ++ lit "x;#1]"
  /\ decode 30 (lit "@[|1|a$|" ++ [newline] ++ lit "x;#1]")
       Decoder.DEFAULT_OPTIONS
     = Some (VList [VList [VRecord [(lit "a", VText (lit "x;#1]"))]]]).
Proof. split; reflexivity. Qed.

End FurtherInputs.

(** ** Inputs on which the decoder returns *)

Section DecoderReturns.

Lemma suffixOf_refl (r : jstring) : suffixOf r r.
Proof. exists []. reflexivity. Qed.

Lemma suffixOf_trans (a b c : jstring) :
  suffixOf a b -> suffixOf b c -> suffixOf a c.
Proof.
  intros (p & ->) (q & ->). exists (q ++ p). apply app_assoc.
Qed.

Lemma suffixOf_cons (c : ascii) (r rest : jstring) :
  suffixOf r rest -> suffixOf r (c :: rest).
Proof. intros (p & ->). exists (c :: p). reflexivity. Qed.

Lemma suffixOf_length (r rest : jstring) :
  suffixOf r rest -> length r <= length rest.
Proof. intros (p & ->). rewrite length_app. lia. Qed.

Lemma suffixOf_plain (r rest : jstring) :
  suffixOf r rest -> plain rest = true -> plain r = true.
Proof.
  intros (p & ->). unfold plain. rewrite forallb_app.
  intros H. apply andb_true_iff in H. tauto.
Qed.

Lemma suffixOf_tl (rest : jstring) : suffixOf (tl rest) rest.
Proof.
  destruct rest as [|c r]; [apply suffixOf_refl|].
  apply suffixOf_cons, suffixOf_refl.
Qed.

Lemma suffixOf_dropWhile (p : ascii -> bool) (s : jstring) :
  suffixOf (dropWhile p s) s.
Proof.
  induction s as [|c s IH]; [apply suffixOf_refl|]. cbn [dropWhile].
  destruct (p c); [apply suffixOf_cons, IH | apply suffixOf_refl].
Qed.

Lemma span_parts (p : ascii -> bool) (s : jstring) :
  s = fst (span p s) ++ snd (span p s).
Proof.
  induction s as [|c s IH]; [reflexivity|]. cbn [span].
  destruct (p c); [|reflexivity].
  destruct (span p s) as [run r]. cbn [fst snd] in *. rewrite IH at 1.
  reflexivity.
Qed.

Lemma suffixOf_span (p : ascii -> bool) (s : jstring) :
  suffixOf (snd (span p s)) s.
Proof. exists (fst (span p s)). apply span_parts. Qed.

(** A run that starts with a character of the class is not empty. *)
Lemma span_progress (p : ascii -> bool) (c : ascii) (s : jstring) :
  p c = true -> length (snd (span p (c :: s))) <= length s.
Proof.
  intros H. cbn [span]. rewrite H.
  pose proof (suffixOf_length _ _ (suffixOf_span p s)) as L.
  destruct (span p s). exact L.
Qed.

Lemma matchStr_parts (s rest r : jstring) :
  matchStr s rest = Some r -> rest = s ++ r.
Proof.
  revert rest. induction s as [|c s IH]; intros rest H.
  - inversion H. reflexivity.
  - destruct rest as [|x rest']; [discriminate|]. cbn [matchStr] in H.
    destruct (Ascii.eqb x c) eqn:E; [|discriminate].
    apply Ascii.eqb_eq in E. subst x. rewrite (IH _ H). reflexivity.
Qed.

Lemma suffixOf_matchStr (s rest r : jstring) :
  matchStr s rest = Some r -> suffixOf r rest.
Proof. intros H. exists s. apply matchStr_parts. exact H. Qed.

Lemma suffixOf_skipStr (s rest : jstring) : suffixOf (skipStr s rest) rest.
Proof.
  unfold skipStr. destruct (matchStr s rest) eqn:E.
  - apply (suffixOf_matchStr s). exact E.
  - apply suffixOf_refl.
Qed.

Lemma suffixOf_skipChar (c : ascii) (rest : jstring) :
  suffixOf (skipChar c rest) rest.
Proof.
  unfold skipChar. destruct (peekIs c rest);
    [apply suffixOf_tl | apply suffixOf_refl].
Qed.

Lemma suffixOf_parseNull (rest : jstring) : suffixOf (snd (parseNull rest)) rest.
Proof.
  unfold parseNull.
  repeat match goal with
         | |- context [matchStr ?s rest] =>
             let E := fresh "E" in
             destruct (matchStr s rest) eqn:E;
             [exact (suffixOf_matchStr _ _ _ E)|]
         end.
  apply suffixOf_refl.
Qed.

Lemma suffixOf_parseNumber (rest : jstring) :
  suffixOf (snd (parseNumber rest)) rest.
Proof.
  unfold parseNumber.
  repeat match goal with
         | |- context [matchStr ?s rest] =>
             let E := fresh "E" in
             destruct (matchStr s rest) eqn:E;
             [exact (suffixOf_matchStr _ _ _ E)|]
         end.
  pose proof (suffixOf_span isNumChar rest) as H.
  destruct (span isNumChar rest). exact H.
Qed.

Lemma suffixOf_quotedBody (n : nat) :
  forall rest, length rest <= n -> suffixOf (snd (quotedBody rest)) rest.
Proof.
  induction n as [|n IH]; intros rest L.
  - destruct rest; [apply suffixOf_refl | simpl in L; lia].
  - destruct rest as [|c rest']; [apply suffixOf_refl|].
    cbn [length] in L. cbn [quotedBody].
    assert (forall r, length r <= n ->
              suffixOf (snd (let (val, r0) := quotedBody r in (c :: val, r0))) r)
      as Step.
    { intros r Lr. pose proof (IH r Lr) as H.
      destruct (quotedBody r). exact H. }
    destruct (Ascii.eqb c dquote).
    + destruct rest' as [|d rest'']; [exists [c]; reflexivity|].
      cbn [length] in L. destruct (Ascii.eqb d dquote).
      * pose proof (IH rest'' ltac:(lia)) as H.
        destruct (quotedBody rest''). cbn [snd] in *.
        apply suffixOf_cons, suffixOf_cons, H.
      * apply suffixOf_cons, suffixOf_refl.
    + destruct (Ascii.eqb c backslash).
      * destruct rest' as [|d rest'']; [exists [c]; reflexivity|].
        cbn [length] in L. destruct (Ascii.eqb d "n").
        -- pose proof (IH rest'' ltac:(lia)) as H.
           destruct (quotedBody rest''). cbn [snd] in *.
           apply suffixOf_cons, suffixOf_cons, H.
        -- pose proof (IH (d :: rest'') ltac:(simpl; lia)) as H.
           destruct (quotedBody (d :: rest'')). cbn [snd] in *.
           apply suffixOf_cons, H.
      * pose proof (IH rest' ltac:(lia)) as H.
        destruct (quotedBody rest'). cbn [snd] in *.
        apply suffixOf_cons, H.
Qed.

Lemma suffixOf_parseQuotedString (rest : jstring) :
  suffixOf (snd (parseQuotedString rest)) rest.
Proof.
  unfold parseQuotedString, consume.
  apply (suffixOf_trans _ (tl rest)); [|apply suffixOf_tl].
  apply (suffixOf_quotedBody (length (tl rest))). lia.
Qed.

(** The loop of [parseMatrix] returns within as many turns as there are
    characters. *)
Lemma matrixRows_returns (k : nat) :
  forall rows currentRow rest, length rest < k ->
    exists v r, matrixRows k rows currentRow rest = Some (v, r)
                /\ suffixOf r rest.
Proof.
  induction k as [|k IH]; intros rows cur rest L; [lia|].
  cbn [matrixRows].
  destruct (isEnd rest || peekIs "]" rest).
  { eexists; eexists; split; [reflexivity | apply suffixOf_skipStr]. }
  destruct rest as [|c x].
  { eexists; eexists; split; [reflexivity | apply suffixOf_refl]. }
  cbn [length] in L.
  destruct (peekIs ";" (c :: x)).
  { destruct (IH (pushRow rows cur) [] x ltac:(lia)) as (v & r & E & S).
    exists v, r. split; [exact E | apply suffixOf_cons, S]. }
  destruct (peekIs "," (c :: x)).
  { destruct (IH rows cur x ltac:(lia)) as (v & r & E & S).
    exists v, r. split; [exact E | apply suffixOf_cons, S]. }
  destruct (peekIn (lit "0123456789.-") (c :: x)) eqn:P.
  - assert (isNumChar c = true) as N.
    { cbn [peekIn] in P. apply inClass_In in P. simpl in P.
      repeat (destruct P as [<-|P]; [reflexivity|]). destruct P. }
    pose proof (span_progress isNumChar c x N) as Lr.
    pose proof (suffixOf_span isNumChar (c :: x)) as Sr.
    destruct (span isNumChar (c :: x)) as [run r']. cbn [snd] in Lr, Sr.
    destruct (IH rows (cur ++ [VNum (parseFloat run)]) r' ltac:(lia))
      as (v & r & E & S).
    exists v, r. split; [exact E | apply (suffixOf_trans _ r'); assumption].
  - eexists; eexists; split; [reflexivity | apply suffixOf_skipStr].
Qed.

Lemma objectEntries_turn (p : jstring -> Budgeted SlimValue) (k : nat)
    (obj : SlimObject) (rest : jstring) :
  isEnd rest || peekIs "}" rest = false ->
  objectEntries p (S k) obj rest
  = Decoder.bind (p (snd (entryKey rest)))
      (fun v r =>
         objectEntries p k (set obj (fst (entryKey rest)) v) (skipChar "," r)).
Proof.
  intros H. cbn [objectEntries]. rewrite H. unfold entryKey.
  destruct (if peekIs dquote (skipWs rest)
            then parseQuotedString (skipWs rest) else ([], skipWs rest))
    as [key r2].
  destruct (match key with
            | [] => span (fun c => negb (inClass (lit ":,{}") c)) r2
            | _ :: _ => (key, r2)
            end) as [key' r3].
  reflexivity.
Qed.

Lemma suffixOf_entryKey (rest : jstring) : suffixOf (snd (entryKey rest)) rest.
Proof.
  unfold entryKey.
  assert (suffixOf (skipWs rest) rest) as S1 by apply suffixOf_dropWhile.
  destruct (if peekIs dquote (skipWs rest)
            then parseQuotedString (skipWs rest) else ([], skipWs rest))
    as [key r2] eqn:E2.
  assert (suffixOf r2 (skipWs rest)) as S2.
  { destruct (peekIs dquote (skipWs rest)).
    - pose proof (suffixOf_parseQuotedString (skipWs rest)) as H.
      rewrite E2 in H. exact H.
    - inversion E2. apply suffixOf_refl. }
  destruct (match key with
            | [] => span (fun c => negb (inClass (lit ":,{}") c)) r2
            | _ :: _ => (key, r2)
            end) as [key' r3] eqn:E3.
  assert (suffixOf r3 r2) as S3.
  { destruct key.
    - pose proof (suffixOf_span (fun c => negb (inClass (lit ":,{}") c)) r2) as H.
      rewrite E3 in H. exact H.
    - inversion E3. apply suffixOf_refl. }
  cbn [snd].
  apply (suffixOf_trans _ r3); [apply suffixOf_skipStr|].
  apply (suffixOf_trans _ r2); [exact S3|].
  apply (suffixOf_trans _ (skipWs rest)); assumption.
Qed.

(** A turn of the loop reads at least one character before the value,
    unless the entry starts with a comma or an opening brace. *)
Lemma entryKey_progress (c : ascii) (x : jstring) :
  Ascii.eqb c "}" = false ->
  length (snd (entryKey (c :: x))) <= length x
  \/ (snd (entryKey (c :: x)) = c :: x /\ (c = "," \/ c = "{")).
Proof.
  intros NB. unfold entryKey.
  destruct (Ascii.eqb " " c) eqn:Sp.
  { left. apply Ascii.eqb_eq in Sp. subst c.
    pose proof (suffixOf_entryKey x) as H. unfold entryKey in H.
    change (skipWs (" " :: x)) with (skipWs x).
    apply suffixOf_length. exact H. }
  assert (skipWs (c :: x) = c :: x) as ->
    by (unfold skipWs; cbn [dropWhile]; rewrite Sp; reflexivity).
  destruct (Ascii.eqb c dquote) eqn:Q.
  { left. cbn [peekIs]. rewrite Q.
    unfold parseQuotedString, consume. cbn [tl].
    pose proof (suffixOf_quotedBody (length x) x (le_n _)) as S2.
    destruct (quotedBody x) as [key r2]. cbn [snd] in S2.
    destruct (match key with
              | [] => span (fun c => negb (inClass (lit ":,{}") c)) r2
              | _ :: _ => (key, r2)
              end) as [key' r3] eqn:E3.
    assert (suffixOf r3 r2) as S3.
    { destruct key.
      - pose proof (suffixOf_span (fun c => negb (inClass (lit ":,{}") c)) r2)
          as H. rewrite E3 in H. exact H.
      - inversion E3. apply suffixOf_refl. }
    cbn [snd]. apply suffixOf_length.
    apply (suffixOf_trans _ r3); [apply suffixOf_skipStr|].
    apply (suffixOf_trans _ r2); assumption. }
  cbn [peekIs]. rewrite Q.
  destruct (inClass (lit ":,{}") c) eqn:K.
  - cbn [span]. rewrite K. cbn [negb snd].
    apply inClass_In in K. simpl in K.
    destruct K as [<-|[<-|[<-|[<-|[]]]]].
    + left. change (skipStr (lit ":") (":" :: x)) with x. lia.
    + right. split; [reflexivity | left; reflexivity].
    + right. split; [reflexivity | right; reflexivity].
    + discriminate.
  - left.
    assert (length (snd (span (fun c => negb (inClass (lit ":,{}") c)) (c :: x)))
            <= length x) as L
      by (apply span_progress; rewrite K; reflexivity).
    destruct (span (fun c0 => negb (inClass (lit ":,{}") c0)) (c :: x))
      as [key' r3]. cbn [snd] in *.
    pose proof (suffixOf_length _ _ (suffixOf_skipStr (lit ":") r3)). lia.
Qed.

Lemma objectEntries_returns (p : jstring -> Budgeted SlimValue) (bound : nat) :
  (forall rest, plain rest = true -> length rest < bound -> returnsOn p rest) ->
  (forall x, p ("," :: x) = Some (VText [], "," :: x)) ->
  forall k obj rest,
    plain rest = true -> length rest < k -> length rest < bound ->
    exists v r, objectEntries p k obj rest = Some (v, r) /\ suffixOf r rest.
Proof.
  intros Hp Hc. induction k as [|k IH]; intros obj rest Pl L Lb; [lia|].
  destruct (isEnd rest || peekIs "}" rest) eqn:E.
  { cbn [objectEntries]. rewrite E.
    eexists; eexists; split; [reflexivity | apply suffixOf_skipStr]. }
  rewrite (objectEntries_turn p k obj rest E).
  destruct rest as [|c x]; [discriminate|].
  cbn [isEnd peekIs orb] in E. cbn [length] in L, Lb.
  pose proof (suffixOf_entryKey (c :: x)) as Sk.
  set (key := fst (entryKey (c :: x))).
  destruct (entryKey_progress c x E) as [Short|(Same & Which)].
  - destruct (Hp (snd (entryKey (c :: x)))) as (v & r & Ev & Sv & _).
    + apply (suffixOf_plain _ _ Sk Pl).
    + lia.
    + rewrite Ev. cbn [Decoder.bind].
      pose proof (suffixOf_length _ _ Sv) as Lv.
      pose proof (suffixOf_skipChar "," r) as Sc.
      pose proof (suffixOf_length _ _ Sc) as Lc.
      destruct (IH (set obj key v) (skipChar "," r)) as (w & r' & Ew & Sw).
      * apply (suffixOf_plain _ r); [exact Sc|].
        apply (suffixOf_plain _ _ Sv). apply (suffixOf_plain _ _ Sk Pl).
      * lia.
      * lia.
      * exists w, r'. split; [exact Ew|].
        apply (suffixOf_trans _ (skipChar "," r)); [exact Sw|].
        apply (suffixOf_trans _ r); [exact Sc|].
        apply (suffixOf_trans _ _ _ Sv Sk).
  - rewrite Same. destruct Which as [->| ->].
    + rewrite Hc. cbn [Decoder.bind]. rewrite skipChar_hit.
      destruct (IH (set obj key (VText [])) x) as (w & r' & Ew & Sw).
      * apply (suffixOf_plain _ ("," :: x)); [apply suffixOf_cons, suffixOf_refl|].
        exact Pl.
      * lia.
      * lia.
      * exists w, r'. split; [exact Ew | apply suffixOf_cons, Sw].
    + destruct (Hp ("{" :: x) Pl ltac:(simpl; lia)) as (v & r & Ev & Sv & Lv).
      specialize (Lv eq_refl). cbn [length] in Lv.
      rewrite Ev. cbn [Decoder.bind].
      pose proof (suffixOf_skipChar "," r) as Sc.
      pose proof (suffixOf_length _ _ Sc) as Lc.
      destruct (IH (set obj key v) (skipChar "," r)) as (w & r' & Ew & Sw).
      * apply (suffixOf_plain _ r); [exact Sc|].
        apply (suffixOf_plain _ _ Sv Pl).
      * lia.
      * lia.
      * exists w, r'. split; [exact Ew|].
        apply (suffixOf_trans _ (skipChar "," r)); [exact Sw|].
        apply (suffixOf_trans _ r); assumption.
Qed.

Lemma parseValue_comma (b : nat) (x : jstring) :
  parseValue (S b) ("," :: x) = Some (VText [], "," :: x).
Proof. reflexivity. Qed.

(** On an input without array marker and without bar, [parseValue]
    returns under any budget above the length of the input. *)
Lemma parseValue_returns (b : nat) :
  forall rest, plain rest = true -> length rest < b ->
    returnsOn (parseValue b) rest.
Proof.
  induction b as [|b IH]; intros rest Pl L; [lia|].
  unfold returnsOn. cbn [parseValue].
  assert (suffixOf (skipWs rest) rest) as Sw by apply suffixOf_dropWhile.
  assert (peekIs "{" rest = true -> skipWs rest = rest) as Br.
  { destruct rest as [|c x]; [discriminate|]. cbn [peekIs]. intros H.
    apply Ascii.eqb_eq in H. subst c. reflexivity. }
  pose proof (suffixOf_plain _ _ Sw Pl) as Pl1.
  pose proof (suffixOf_length _ _ Sw) as L1.
  destruct (skipWs rest) as [|ch after] eqn:E1.
  { exists VUndefined, []. split; [reflexivity|]. split; [exact Sw|].
    intros H. rewrite <- (Br H) in H. discriminate. }
  cbn [length] in L1.
  assert (forall r, suffixOf r after ->
            suffixOf r rest
            /\ (peekIs "{" rest = true -> length r < length rest)) as Fin.
  { intros r S. split.
    - apply (suffixOf_trans _ (ch :: after)); [apply suffixOf_cons, S | exact Sw].
    - intros _. pose proof (suffixOf_length _ _ S). lia. }
  destruct (Ascii.eqb ch "!").
  { pose proof (suffixOf_parseNull after) as S.
    destruct (parseNull after) as [v r].
    exists v, r. split; [reflexivity | apply Fin, S]. }
  destruct (Ascii.eqb ch "?").
  { eexists; eexists. split; [reflexivity|].
    apply Fin. apply suffixOf_tl. }
  destruct (Ascii.eqb ch "#").
  { pose proof (suffixOf_parseNumber after) as S.
    destruct (parseNumber after) as [n r].
    exists (VNum n), r. split; [reflexivity | apply Fin, S]. }
  destruct (Ascii.eqb ch "@") eqn:At.
  { apply Ascii.eqb_eq in At. subst ch. discriminate. }
  destruct (Ascii.eqb ch "*").
  { unfold parseMatrix. destruct (matchStr (lit "[") after) as [r0|] eqn:M.
    - pose proof (suffixOf_matchStr _ _ _ M) as S0.
      pose proof (suffixOf_length _ _ S0) as L0.
      destruct (matrixRows_returns b [] [] r0 ltac:(lia)) as (v & r & E & S).
      exists v, r. split; [exact E|]. apply Fin.
      apply (suffixOf_trans _ r0); assumption.
    - eexists; eexists. split; [reflexivity|].
      apply Fin, suffixOf_refl. }
  destruct (Ascii.eqb ch "{") eqn:Ob.
  { apply Ascii.eqb_eq in Ob. subst ch. unfold parseObject.
    change (skipStr (lit "{") ("{" :: after)) with after.
    destruct b as [|b']; [simpl in L1; lia|].
    destruct (objectEntries_returns (parseValue (S b')) (S b') IH
                (parseValue_comma b') (S b') [] after) as (v & r & E & S).
    - apply (suffixOf_plain _ ("{" :: after));
        [apply suffixOf_cons, suffixOf_refl | exact Pl1].
    - lia.
    - lia.
    - exists v, r. split; [exact E | apply Fin, S]. }
  destruct (Ascii.eqb ch "|") eqn:Bar.
  { apply Ascii.eqb_eq in Bar. subst ch. discriminate. }
  assert (peekIs "{" rest = true -> False) as NoB.
  { intros H. rewrite <- (Br H) in H. cbn [peekIs] in H. congruence. }
  destruct (Ascii.eqb ch dquote).
  { pose proof (suffixOf_parseQuotedString (ch :: after)) as S.
    destruct (parseQuotedString (ch :: after)) as [s r].
    exists (VText s), r. split; [reflexivity|]. split.
    - apply (suffixOf_trans _ _ _ S Sw).
    - intros H. destruct (NoB H). }
  pose proof (suffixOf_span (fun c => negb (inClass unquotedStop c)) (ch :: after))
    as S.
  unfold parseUnquoted.
  destruct (span (fun c => negb (inClass unquotedStop c)) (ch :: after)) as [s r].
  exists (VText s), r. split; [reflexivity|]. split.
  - apply (suffixOf_trans _ _ _ S Sw).
  - intros H. destruct (NoB H).
Qed.

(** X1. On every input that holds neither an array marker [@] nor a
    bar, [decode] returns a value (the limit of the call stack aside): a
    budget of one more than the length of the input suffices. *)
Theorem decode_returns_without_arrays_and_tables
    (slim : jstring) (options : DecodeOptions) :
  (forall c, In c slim -> c <> "@" /\ c <> "|") ->
  exists v,
    decode (S (length slim)) slim options = Some v /\ decodes slim options v.
Proof.
  intros H.
  assert (plain slim = true) as Pl.
  { apply forallb_forall. intros c Hc. destruct (H c Hc) as [H1 H2].
    apply negb_true_iff. unfold inClass. cbn [existsb lit list_ascii_of_string].
    destruct (Ascii.eqb_spec c "@"); [congruence|].
    destruct (Ascii.eqb_spec c "|"); [congruence|]. reflexivity. }
  destruct (parseValue_returns (S (length slim)) slim Pl (le_n _))
    as (v & r & E & _).
  assert (decode (S (length slim)) slim options = Some v) as D
    by (unfold decode; rewrite E; reflexivity).
  exists v. split; [exact D|]. exists (S (length slim)). exact D.
Qed.

Lemma decode_returns_without_arrays_and_tables_witness :
  (forall c, In c (lit "{a:#1,b:{c:?T,d:*[1,2;3]},e:!null") ->
     c <> "@" /\ c <> "|")
  /\ exists v,
       decodes (lit "{a:#1,b:{c:?T,d:*[1,2;3]},e:!null") Decoder.DEFAULT_OPTIONS v.
Proof.
  assert (forall c, In c (lit "{a:#1,b:{c:?T,d:*[1,2;3]},e:!null") ->
            c <> "@" /\ c <> "|") as H.
  { intros c Hc. simpl in Hc.
    repeat (destruct Hc as [<-|Hc]; [split; discriminate|]). destruct Hc. }
  split; [exact H|].
  destruct (decode_returns_without_arrays_and_tables _ Decoder.DEFAULT_OPTIONS H)
    as (v & _ & Hv).
  exists v. exact Hv.
Defined.

End DecoderReturns.

(** ** Arrays on which the decoder never returns *)

Section ArraysThatNeverEnd.

(** At an opening bracket, a closing brace or a newline, [parseValue]
    returns the empty text and leaves the cursor where it was. *)
Lemma parseValue_stop (b : nat) (c : ascii) (rest : jstring) :
  In c ["["; "}"; newline] ->
  parseValue (S b) (c :: rest) = Some (VText [], c :: rest).
Proof.
  intros H. simpl in H.
  repeat (destruct H as [<-|H]; [reflexivity|]). destruct H.
Qed.

(** The general loop of [parseArray] at such a character makes no
    progress. *)
Lemma arrayItems_stuck (b0 b : nat) (c : ascii) (rest : jstring) :
  In c ["["; "}"; newline] ->
  forall items, arrayItems (parseValue b0) b false items (c :: rest) = None.
Proof.
  intros H. induction b as [|b IH]; intros items; [reflexivity|].
  cbn [arrayItems].
  assert (isEnd (c :: rest) || peekIs "]" (c :: rest) = false) as ->
    by (simpl in H; repeat (destruct H as [<-|H]; [reflexivity|]); destruct H).
  destruct b0 as [|b0]; [reflexivity|].
  rewrite (parseValue_stop b0 c rest H). cbn [Decoder.bind].
  assert (peekIs "," (c :: rest) || peekIs ";" (c :: rest) = false) as ->
    by (simpl in H; repeat (destruct H as [<-|H]; [reflexivity|]); destruct H).
  apply IH.
Qed.

(** A bare text before such a character is read as an item, and the loop
    stays at the character. *)
Lemma arrayItems_stuck_after (b0 b : nat) (pre : jstring) (c : ascii)
    (rest : jstring) :
  bareOK pre = true -> In c ["["; "}"; newline] ->
  forall items,
    arrayItems (parseValue b0) b false items (pre ++ c :: rest) = None.
Proof.
  intros B H items. destruct b as [|b]; [reflexivity|].
  cbn [arrayItems].
  destruct (bareOK_head pre B) as (d & r & -> & Hd).
  change (isEnd ((d :: r) ++ c :: rest) || peekIs "]" ((d :: r) ++ c :: rest))
    with (Ascii.eqb d "]"). rewrite Hd.
  destruct b0 as [|b0]; [reflexivity|].
  assert (parseValue (S b0) ((d :: r) ++ c :: rest)
          = Some (VText (d :: r), c :: rest)) as ->.
  { unfold bareOK in B. apply andb_true_iff in B as [B B3].
    apply andb_true_iff in B as [B1 B2]. apply negb_true_iff in B1, B2, B3.
    cbn [app]. rewrite parseValue_plain by assumption.
    unfold parseUnquoted. change (d :: r ++ c :: rest) with ((d :: r) ++ c :: rest).
    rewrite span_app; [reflexivity| |].
    - apply forallb_forall. intros x Hx. apply negb_true_iff.
      apply (testClass_false _ _ B3). assumption.
    - simpl in H. repeat (destruct H as [<-|H]; [reflexivity|]). destruct H. }
  cbn [Decoder.bind].
  assert (peekIs "," (c :: rest) || peekIs ";" (c :: rest) = false) as ->
    by (simpl in H; repeat (destruct H as [<-|H]; [reflexivity|]); destruct H).
  apply arrayItems_stuck. exact H.
Qed.

(** The numeric loop makes no progress at a character that is neither
    part of a number, nor a separator, nor the closing bracket. *)
Lemma arrayItems_numeric_stuck_at (p : jstring -> Budgeted SlimValue) (b : nat)
    (c : ascii) (rest : jstring) :
  isNumChar c = false -> inClass (lit ",;]") c = false ->
  forall items, arrayItems p b true items (c :: rest) = None.
Proof.
  intros N S. induction b as [|b IH]; intros items; [reflexivity|].
  apply inClass_false_cons in S as [S1 S].
  apply inClass_false_cons in S as [S2 S].
  apply inClass_false_cons in S as [S3 _].
  cbn [arrayItems isEnd peekIs orb span]. rewrite S3, N.
  cbn [Decoder.bind peekIs]. rewrite S1, S2. apply IH.
Qed.

(** One turn of the numeric loop on an integer and its comma. *)
Lemma arrayItems_int_turn (p : jstring -> Budgeted SlimValue) (b : nat)
    (z : Z) (items : list SlimValue) (x : jstring) :
  arrayItems p (S b) true items (intText z ++ "," :: x)
  = arrayItems p b true (items ++ [intValue z]) x.
Proof.
  cbn [arrayItems].
  destruct (intText_head_class z ("," :: x)) as (_ & E1 & _ & _ & E2).
  rewrite E1, E2. cbn [orb].
  rewrite span_intText by reflexivity. cbn [Decoder.bind].
  rewrite push_int. reflexivity.
Qed.

(** Integers before the place where the loop is stuck change nothing. *)
Lemma arrayItems_ints_then_stuck (p : jstring -> Budgeted SlimValue)
    (x : jstring) :
  (forall b items, arrayItems p b true items x = None) ->
  forall zs b items,
    arrayItems p b true items
      (concat (map (fun z => intText z ++ [","]) zs) ++ x) = None.
Proof.
  intros H. induction zs as [|z zs IH]; intros b items; [apply H|].
  destruct b as [|b]; [reflexivity|].
  cbn [map concat]. rewrite <- !app_assoc. cbn [app].
  rewrite arrayItems_int_turn. apply IH.
Qed.

(** The text of a number that is not finite, in a numeric list. *)
Lemma arrayItems_not_finite (p : jstring -> Budgeted SlimValue) (n : num)
    (x : jstring) :
  n = NaN \/ n = Inf \/ n = NegInf ->
  forall b items, arrayItems p b true items (numToString n ++ x) = None.
Proof.
  intros [->|[->| ->]] b items.
  - apply arrayItems_numeric_stuck_at; reflexivity.
  - apply arrayItems_numeric_stuck_at; reflexivity.
  - destruct b as [|b]; [reflexivity|].
    change (numToString NegInf ++ x) with ("-" :: lit "Infinity" ++ x).
    cbn [arrayItems isEnd peekIs orb]. 
    change (Ascii.eqb "-" "]") with false. cbv iota.
    change (span isNumChar ("-" :: lit "Infinity" ++ x))
      with ([ "-" ], lit "Infinity" ++ x).
    cbn [Decoder.bind].
    change (peekIs "," (lit "Infinity" ++ x) || peekIs ";" (lit "Infinity" ++ x))
      with false. cbv iota.
    apply arrayItems_numeric_stuck_at; reflexivity.
Qed.

Lemma join_ints_then (zs : list Z) (parts : list jstring) :
  parts <> [] ->
  join (lit ",") (map intText zs ++ parts)
  = concat (map (fun z => intText z ++ [","]) zs) ++ join (lit ",") parts.
Proof.
  intros NE. induction zs as [|z zs IH]; [reflexivity|].
  cbn [map app concat].
  destruct (map intText zs ++ parts) as [|q qs] eqn:E.
  - destruct zs; [|discriminate]. cbn [map app] in E. congruence.
  - change (join (lit ",") (intText z :: q :: qs))
      with (intText z ++ lit "," ++ join (lit ",") (q :: qs)).
    rewrite IH, <- !app_assoc. reflexivity.
Qed.

Lemma decode_array (b : nat) (x : jstring) (options : DecodeOptions) :
  peekIs "]" x = false ->
  decode (S b) ("@" :: "[" :: x) options
  = match arrayItems (parseValue b) b false [] x with
    | Some (items, _) => Some (VList items)
    | None => None
    end.
Proof.
  intros H. unfold decode. rewrite parseValue_array, parseArray_general by exact H.
  destruct (arrayItems (parseValue b) b false [] x) as [[items r]|]; reflexivity.
Qed.

Lemma decode_numeric_array (b : nat) (x : jstring) (options : DecodeOptions) :
  peekIs "]" x = false ->
  decode (S b) ("@" :: "#" :: "[" :: x) options
  = match arrayItems (parseValue b) b true [] x with
    | Some (items, _) => Some (VList items)
    | None => None
    end.
Proof.
  intros H. unfold decode. rewrite parseValue_array, parseArray_numeric by exact H.
  destruct (arrayItems (parseValue b) b true [] x) as [[items r]|]; reflexivity.
Qed.

(** X2. [decode] never returns on an array whose general loop reaches an
    opening bracket, a closing brace or a newline where an item should
    start, at once or after a bare text; nor on a numeric array whose
    first item starts with a character that is neither part of a number,
    nor a comma, a semicolon or the closing bracket. *)
Theorem decode_array_never_returns
    (pre : jstring) (c : ascii) (rest : jstring) (options : DecodeOptions) :
  ((pre = [] \/ bareOK pre = true) ->
   In c ["["; "}"; newline] ->
   diverges ("@" :: "[" :: pre ++ c :: rest) options)
  /\ (isNumChar c = false -> inClass (lit ",;]") c = false ->
      diverges ("@" :: "#" :: "[" :: c :: rest) options).
Proof.
  split.
  - intros P H [|b]; [reflexivity|]. rewrite decode_array.
    + destruct P as [->|B].
      * cbn [app]. rewrite arrayItems_stuck by exact H. reflexivity.
      * rewrite arrayItems_stuck_after by assumption. reflexivity.
    + destruct P as [->|B].
      * simpl in H. repeat (destruct H as [<-|H]; [reflexivity|]). destruct H.
      * destruct (bareOK_head pre B) as (d & r & -> & Hd). exact Hd.
  - intros N S [|b]; [reflexivity|]. rewrite decode_numeric_array.
    + rewrite arrayItems_numeric_stuck_at by assumption. reflexivity.
    + apply inClass_false_cons in S as [_ S].
      apply inClass_false_cons in S as [_ S].
      apply inClass_false_cons in S as [S _]. exact S.
Qed.

Lemma decode_array_never_returns_witness :
  bareOK (lit "a") = true
  /\ diverges (lit "@[a}b]") Decoder.DEFAULT_OPTIONS
  /\ diverges (lit "@#[x]") Decoder.DEFAULT_OPTIONS.
Proof.
  split; [reflexivity|]. split.
  - apply (proj1 (decode_array_never_returns (lit "a") "}" (lit "b]")
                    Decoder.DEFAULT_OPTIONS)).
    + right. reflexivity.
    + right. left. reflexivity.
  - apply (proj2 (decode_array_never_returns [] "x" (lit "]")
                    Decoder.DEFAULT_OPTIONS)); reflexivity.
Defined.

(** X3. What [encode] writes for a list of numbers in which integers are
    followed by NaN or an infinity, and for a list of texts free of comma,
    semicolon and square brackets whose first text holds a closing brace
    or a newline at its start or after a bare text, is an input on which
    [decode] never returns. *)
Theorem decode_encode_never_returns
    (opts : EncodeOptions) (options : DecodeOptions) :
  (0 <= maxDepth opts)%Z ->
  (forall (zs : list Z) (n : num) (more : list num),
     n = NaN \/ n = Inf \/ n = NegInf ->
     diverges (encode (VList (map VNum (map Int zs ++ n :: more))) opts) options)
  /\ (forall (pre : jstring) (c : ascii) (post : jstring) (more : list jstring),
        pre = [] \/ bareOK pre = true ->
        In c ["}"; newline] ->
        forallb isSimpleString (map VText ((pre ++ c :: post) :: more)) = true ->
        diverges (encode (VList (map VText ((pre ++ c :: post) :: more))) opts)
          options).
Proof.
  intros D. split.
  - intros zs n more Hn [|b]; [reflexivity|].
    rewrite encode_list by exact D. unfold encodeArray.
    assert (map VNum (map Int zs ++ n :: more) <> []) as NE
      by (destruct zs; discriminate).
    rewrite (encodeArrayWith_list opts _ _ NE).
    assert (isMatrix (map VNum (map Int zs ++ n :: more)) = false) as ->
      by (destruct zs; reflexivity).
    assert (forallb isNumber (map VNum (map Int zs ++ n :: more)) = true) as ->
      by (apply forallb_forall; intros v Hv;
          apply in_map_iff in Hv as (y & <- & _); reflexivity).
    rewrite arrayJoin_numbers, map_app, map_map.
    change (map (fun z => numToString (Int z)) zs) with (map intText zs).
    rewrite join_ints_then by discriminate.
    cbn [map]. destruct (join_head (lit ",") (numToString n)
                           (map numToString more)) as (t & ->).
    rewrite <- !app_assoc.
    change (lit "@#[" ++ ?x) with ("@" :: "#" :: "[" :: x).
    rewrite decode_numeric_array.
    + rewrite arrayItems_ints_then_stuck; [reflexivity|].
      intros b' items. apply arrayItems_not_finite. exact Hn.
    + destruct zs as [|z zs].
      * destruct Hn as [->|[->| ->]]; reflexivity.
      * cbn [map concat]. rewrite <- !app_assoc.
        apply (intText_head_class z).
  - intros pre c post more P H S [|b]; [reflexivity|].
    rewrite encode_list by exact D. unfold encodeArray.
    assert (map VText ((pre ++ c :: post) :: more) <> []) as NE by discriminate.
    rewrite (encodeArrayWith_list opts _ _ NE).
    assert (isMatrix (map VText ((pre ++ c :: post) :: more)) = false) as ->
      by reflexivity.
    assert (forallb isNumber (map VText ((pre ++ c :: post) :: more)) = false)
      as -> by reflexivity.
    rewrite S.
    rewrite arrayJoin_texts.
    destruct (join_head (lit ",") (pre ++ c :: post) more) as (t & E).
    unfold jstring in E. rewrite E. clear E.
    rewrite <- !app_assoc. cbn [app].
    change (lit "@[" ++ ?x) with ("@" :: "[" :: x).
    assert (In c ["["; "}"; newline]) as H'
      by (simpl in *; tauto).
    rewrite decode_array.
    + destruct P as [->|B].
      * cbn [app]. rewrite arrayItems_stuck by exact H'. reflexivity.
      * rewrite arrayItems_stuck_after by assumption. reflexivity.
    + destruct P as [->|B].
      * simpl in H. repeat (destruct H as [<-|H]; [reflexivity|]). destruct H.
      * destruct (bareOK_head pre B) as (d & r & -> & Hd). exact Hd.
Qed.

Lemma decode_encode_never_returns_witness :
  (0 <= maxDepth Encoder.DEFAULT_OPTIONS)%Z
  /\ encode (VList [VNum (Int 1); VNum NaN]) Encoder.DEFAULT_OPTIONS
     = lit "@#[1,NaN]"
  /\ diverges (encode (VList [VNum (Int 1); VNum NaN]) Encoder.DEFAULT_OPTIONS)
       Decoder.DEFAULT_OPTIONS
  /\ diverges (encode (VList [VText (lit "a}b")]) Encoder.DEFAULT_OPTIONS)
       Decoder.DEFAULT_OPTIONS.
Proof.
  split; [discriminate|]. split; [reflexivity|].
  pose proof (decode_encode_never_returns Encoder.DEFAULT_OPTIONS
                Decoder.DEFAULT_OPTIONS ltac:(discriminate)) as (H1 & H2).
  split.
  - apply (H1 [1%Z] NaN []). left. reflexivity.
  - apply (H2 (lit "a") "}" (lit "b") []).
    + right. reflexivity.
    + left. reflexivity.
    + reflexivity.
Defined.

End ArraysThatNeverEnd.

(** ** Matrices as the decoder reads them *)

Section MatrixRows.

Lemma pushRow_rows (rows : list SlimValue) (ns : list num) :
  Forall numberRow rows -> Forall numberRow (pushRow rows (map VNum ns)).
Proof.
  intros F. destruct ns as [|n ns]; [exact F|].
  cbn [map pushRow]. apply Forall_app. split; [exact F|].
  constructor; [|constructor]. exists (n :: ns). split; [discriminate|reflexivity].
Qed.

Lemma matrixRows_rows_kept (k : nat) :
  forall rows ns rest v r,
    Forall numberRow rows ->
    matrixRows k rows (map VNum ns) rest = Some (v, r) ->
    exists rows', v = VList rows' /\ Forall numberRow rows'.
Proof.
  induction k as [|k IH]; intros rows ns rest v r F E; [discriminate|].
  cbn [matrixRows] in E.
  destruct (isEnd rest || peekIs "]" rest).
  { inversion E. eexists. split; [reflexivity | apply pushRow_rows, F]. }
  destruct (peekIs ";" rest).
  { apply (IH _ [] _ _ _ (pushRow_rows rows ns F) E). }
  destruct (peekIs "," rest).
  { apply (IH _ ns _ _ _ F E). }
  destruct (peekIn (lit "0123456789.-") rest).
  - destruct (span isNumChar rest) as [run r'].
    apply (IH rows (ns ++ [parseFloat run]) r' v r F).
    rewrite map_app. exact E.
  - inversion E. eexists. split; [reflexivity | apply pushRow_rows, F].
Qed.

(** X4. On an input that starts with the matrix marker, [decode] returns
    within a budget of one more than the length of the input, and what it
    returns is a list of rows, each a list of numbers that is not empty: a
    row without numbers is never kept. *)
Theorem decode_matrix_rows (slim : jstring) (options : DecodeOptions) :
  (exists v, decode (S (S (length slim))) ("*" :: slim) options = Some v)
  /\ forall v, decodes ("*" :: slim) options v ->
       exists rows, v = VList rows /\ Forall numberRow rows.
Proof.
  split.
  - unfold decode.
    change (parseValue (S (S (length slim))) ("*" :: slim))
      with (parseMatrix (S (length slim)) slim).
    unfold parseMatrix. destruct (matchStr (lit "[") slim) as [r0|] eqn:M.
    + pose proof (suffixOf_length _ _ (suffixOf_matchStr _ _ _ M)) as L.
      destruct (matrixRows_returns (S (length slim)) [] [] r0 ltac:(lia))
        as (v & r & E & _).
      rewrite E. exists v. reflexivity.
    + exists (VList []). reflexivity.
  - intros v (b & E). unfold decode in E. destruct b as [|b]; [discriminate|].
    change (parseValue (S b) ("*" :: slim)) with (parseMatrix b slim) in E.
    unfold parseMatrix in E. destruct (matchStr (lit "[") slim) as [r0|].
    + destruct (matrixRows b [] [] r0) as [[w r]|] eqn:M; [|discriminate].
      inversion E; subst w.
      apply (matrixRows_rows_kept b [] [] r0 v r (Forall_nil _) M).
    + inversion E. exists []. split; [reflexivity | constructor].
Qed.

End MatrixRows.

(** ** Lists of integers in table cells *)

Section InlineArrays.









End InlineArrays.

(** ** Validation against the inferred schema *)

Section ValidateInferred.










End ValidateInferred.

(** ** Deep equality as a relation *)

Section DeepEqualRelation.
















End DeepEqualRelation.

(** ** The options of the encoder *)

Section EncoderOptions.

(** The value under a key is Undefined or the value of an entry. *)
Lemma get_entry (obj : SlimObject) (k : jstring) :
  get obj k = VUndefined \/ exists k', In (k', get obj k) obj.
Proof.
  induction obj as [|[k' v] obj IH]; [left; reflexivity|]. cbn [get].
  destruct (streq k' k).
  - right. exists k'. left. reflexivity.
  - destruct IH as [IH|(k'' & IH)]; [left; exact IH|].
    right. exists k''. right. exact IH.
Qed.

(** [encodeTable] calls the encoder of its cells on values of the rows
    only. *)
Lemma encodeTable_ext (enc enc' : SlimValue -> jstring) (rows : list SlimObject) :
  (forall row k x, In row rows -> In (k, x) row -> enc x = enc' x) ->
  encodeTable enc rows = encodeTable enc' rows.
Proof.
  intros H. unfold encodeTable. do 7 f_equal.
  apply map_ext_in. intros row Hr. f_equal.
  apply map_ext. intros k. unfold encodeCell.
  destruct (get_entry row k) as [E|(k' & E)].
  - rewrite E. reflexivity.
  - rewrite (H row k' (get row k) Hr E). reflexivity.
Qed.

Lemma tableEligible_threshold (opts opts' : EncodeOptions)
    (arr : list SlimValue) :
  tableThreshold opts = tableThreshold opts' ->
  tableEligible opts arr = tableEligible opts' arr.
Proof. intros H. unfold tableEligible. rewrite H. reflexivity. Qed.

Lemma depth_row_value (arr : list SlimValue) (row : SlimObject) (k : jstring)
    (x : SlimValue) :
  In row (map entriesOf arr) -> In (k, x) row -> depth x + 2 <= depth (VList arr).
Proof.
  intros Hr Hx. apply in_map_iff in Hr as (item & <- & Hi).
  destruct item as [| |b|y|s|l|es]; try destruct Hx.
  cbn [entriesOf] in Hx.
  pose proof (depth_item _ _ Hi) as D1. pose proof (depth_entry k x es Hx) as D2.
  cbn [depth] in *. lia.
Qed.

(** With levels left beyond the depth of the value, neither their number
    nor [pretty] changes what is written. *)
Lemma encodeValueLeft_enough (opts opts' : EncodeOptions) (d : nat) :
  tableThreshold opts = tableThreshold opts' ->
  forall v n m,
    depth v < d -> depth v < n -> depth v < m ->
    encodeValueLeft opts n v = encodeValueLeft opts' m v.
Proof.
  intros T. induction d as [|d IH]; intros v n m Dd Dn Dm; [lia|].
  destruct n as [|n]; [lia|]. destruct m as [|m]; [lia|].
  destruct v as [| |b|x|s|arr|obj]; try reflexivity.
  - cbn [encodeValueLeft]. unfold encodeArrayWith.
    destruct arr as [|v0 arr']; [reflexivity|].
    remember (v0 :: arr') as arr.
    rewrite (tableEligible_threshold opts opts' arr T).
    destruct (isMatrix arr); [reflexivity|].
    destruct (forallb isNumber arr); [reflexivity|].
    destruct (forallb isSimpleString arr); [reflexivity|].
    destruct (tableEligible opts' arr).
    + apply encodeTable_ext. intros row k x Hr Hx.
      pose proof (depth_row_value arr row k x Hr Hx). apply IH; lia.
    + do 2 f_equal. f_equal. apply map_ext_in. intros x Hx.
      pose proof (depth_item x arr Hx). cbn [depth] in *. apply IH; lia.
  - cbn [encodeValueLeft]. unfold encodeObjectWith.
    destruct obj as [|kv0 obj']; [reflexivity|].
    remember (kv0 :: obj') as obj.
    do 2 f_equal. f_equal. apply map_ext_in. intros [key value] Hkv.
    pose proof (depth_entry key value obj Hkv) as Dv. cbn [depth] in Dd, Dn, Dm.
    rewrite (tableEligible_threshold opts opts' (itemsOf value) T).
    destruct (isArray value && tableEligible opts' (itemsOf value)) eqn:E.
    + f_equal. f_equal.
      apply andb_true_iff in E as [A _].
      destruct value as [| |b|x|s|items|es]; try discriminate.
      cbn [itemsOf]. apply encodeTable_ext. intros row k x Hr Hx.
      pose proof (depth_row_value items row k x Hr Hx).
      destruct n as [|n]; [lia|]. destruct m as [|m]; [lia|].
      apply IH; lia.
    + f_equal. f_equal. apply IH; lia.
Qed.

(** X9. [encode] reads its options through [maxDepth] and
    [tableThreshold] only, and through [maxDepth] only to cut what lies
    deeper: under two sets of options with the same threshold and limits
    that the value does not exceed, the same text is written, whatever
    [pretty] says.  Under a negative limit everything is written as
    [!DEEP]. *)
Theorem encode_options
    (v : SlimValue) (opts opts' : EncodeOptions) :
  tableThreshold opts = tableThreshold opts' ->
  (Z.of_nat (depth v) <= maxDepth opts)%Z ->
  (Z.of_nat (depth v) <= maxDepth opts')%Z ->
  encode v opts = encode v opts'
  /\ forall deep, (maxDepth deep < 0)%Z -> encode v deep = SLIM_DEEP.
Proof.
  intros T D D'. split.
  - unfold encode, encodeValue.
    apply (encodeValueLeft_enough opts opts' (S (depth v)) T);
      unfold levelsLeft; lia.
  - intros deep H. unfold encode, encodeValue.
    assert (levelsLeft deep 0 = 0) as -> by (unfold levelsLeft; lia).
    reflexivity.
Qed.

Lemma encode_options_witness :
  tableThreshold Encoder.DEFAULT_OPTIONS
  = tableThreshold {| maxDepth := 4; tableThreshold := 1; pretty := true |}
  /\ encode nestedSample Encoder.DEFAULT_OPTIONS
     = encode nestedSample
         {| maxDepth := 4; tableThreshold := 1; pretty := true |}.
Proof.
  split; [reflexivity|].
  apply (encode_options nestedSample Encoder.DEFAULT_OPTIONS
           {| maxDepth := 4; tableThreshold := 1; pretty := true |});
    [reflexivity | vm_compute; discriminate | vm_compute; discriminate].
Defined.

End EncoderOptions.

(** ** The streaming interface *)

Section Streaming.

Lemma encoderWrite_all (e : SlimEncoder) (objects : list SlimObject) :
  encoderOptions (fold_left encoderWrite objects e) = encoderOptions e
  /\ encoderBuffer (fold_left encoderWrite objects e)
     = encoderBuffer e ++ objects.
Proof.
  revert e. induction objects as [|obj objects IH]; intros e.
  - split; [reflexivity | symmetry; apply app_nil_r].
  - cbn [fold_left]. destruct (IH (encoderWrite e obj)) as (O & B).
    rewrite O, B. cbn [encoderWrite encoderOptions encoderBuffer].
    rewrite <- app_assoc. split; reflexivity.
Qed.



(** X10. An encoder that was given objects one by one holds as many, and
    its [end()] is what [encodeStream] returns for the same objects; both
    are [encode] of the list of the objects, in the order written, unless
    [maxDepth] is negative (where no object at all gives [@[]] and not
    [!DEEP]). *)
Theorem encoder_writes_then_end
    (options : EncodeOptions) (objects : list SlimObject) :
  let e := fold_left encoderWrite objects (createEncoder options) in
  encoderSize e = length objects
  /\ encoderEnd e = encodeStream objects options
  /\ ((0 <= maxDepth options)%Z \/ objects <> [] ->
      encoderEnd e = encode (VList (map VRecord objects)) options)
  /\ ((maxDepth options < 0)%Z ->
      encoderEnd (createEncoder options) = lit "@[]"
      /\ encode (VList []) options = SLIM_DEEP).
Proof.
  cbv zeta.
  destruct (encoderWrite_all (createEncoder options) objects) as (O & B).
  cbn [createEncoder encoderOptions encoderBuffer app] in O, B.
  unfold encoderSize, encoderEnd, encodeStream. rewrite O, B.
  split; [reflexivity|]. split; [destruct objects; reflexivity|]. split.
  - intros [D|NE].
    + destruct objects; [|reflexivity].
      rewrite encode_list by exact D. reflexivity.
    + destruct objects; [congruence | reflexivity].
  - intros D. split; [reflexivity|].
    unfold encode, encodeValue.
    assert (levelsLeft options 0 = 0) as -> by (unfold levelsLeft; lia).
    reflexivity.
Qed.





Lemma encoder_writes_then_end_witness :
  ((0 <= maxDepth Encoder.DEFAULT_OPTIONS)%Z \/ streamRows <> [])
  /\ encoderEnd (fold_left encoderWrite streamRows
                   (createEncoder Encoder.DEFAULT_OPTIONS))
     = encode (VList (map VRecord streamRows)) Encoder.DEFAULT_OPTIONS.
Proof.
  split; [right; discriminate|].
  apply (encoder_writes_then_end Encoder.DEFAULT_OPTIONS streamRows).
  right. discriminate.
Defined.


End Streaming.

(** ** Encoding in chunks *)

Section Chunks.























End Chunks.

(** ** Utilities: token estimate and clone *)

Section UtilityFacts.

Lemma estimateTokens_bounds (str : jstring) :
  length str <= 4 * estimateTokens str
  /\ 4 * estimateTokens str < length str + 4.
Proof.
  unfold estimateTokens. cbv zeta.
  pose proof (Nat.div_mod_eq (length str) 4) as E.
  pose proof (Nat.mod_upper_bound (length str) 4 ltac:(discriminate)) as U.
  destruct (Nat.eqb_spec (length str mod 4) 0); lia.
Qed.

(** X14. [estimateTokens] counts four characters to a token, rounding
    up: four times the estimate is at least the length of the text and
    less than the length plus four.  A longer text never has a smaller
    estimate, and the estimates of two texts add up to at least the
    estimate of the two texts put together. *)
Theorem estimateTokens_rounds_up (a b : jstring) :
  (length a <= 4 * estimateTokens a < length a + 4)
  /\ estimateTokens a <= estimateTokens (a ++ b)
  /\ estimateTokens (a ++ b) <= estimateTokens a + estimateTokens b
  /\ estimateTokens [] = 0.
Proof.
  pose proof (estimateTokens_bounds a) as (A1 & A2).
  pose proof (estimateTokens_bounds b) as (B1 & B2).
  pose proof (estimateTokens_bounds (a ++ b)) as (C1 & C2).
  rewrite length_app in C1, C2.
  split; [lia|]. split; [lia|]. split; [lia | reflexivity].
Qed.






End UtilityFacts.

(** ** Utilities: paths *)

Section Paths.

Lemma split_cons (sep : ascii) (s : jstring) :
  exists p ps, split sep s = p :: ps.
Proof.
  induction s as [|c s IH]; [eexists; eexists; reflexivity|].
  cbn [split]. destruct (Ascii.eqb c sep); [eexists; eexists; reflexivity|].
  destruct IH as (p & ps & ->). eexists; eexists; reflexivity.
Qed.

(** A separator splits the parts of what is before it from the parts of
    what is after it. *)
Lemma split_at_sep (sep : ascii) (a b : jstring) :
  split sep (a ++ sep :: b) = split sep a ++ split sep b.
Proof.
  induction a as [|c a IH]; cbn [app split].
  - rewrite Ascii.eqb_refl. reflexivity.
  - destruct (Ascii.eqb c sep); [rewrite IH; reflexivity|].
    rewrite IH. destruct (split_cons sep a) as (p & ps & ->). reflexivity.
Qed.

Lemma walk_undefined (parts : list jstring) :
  walk VUndefined parts = Some VUndefined.
Proof. destruct parts; reflexivity. Qed.

Lemma walk_app (parts more : list jstring) :
  forall current,
    walk current (parts ++ more)
    = andThen (walk current parts) (fun w => walk w more).
Proof.
  induction parts as [|part parts IH]; intros current; [reflexivity|].
  cbn [app walk].
  destruct current as [| |b|x|s|items|obj];
    try (cbn [andThen]; rewrite walk_undefined; reflexivity).
  - destruct (parseInt part); [apply IH|].
    cbn [andThen]. rewrite walk_undefined. reflexivity.
  - destruct (lookup obj part); [apply IH | reflexivity].
Qed.

(** On a value that is no object, the walk over at least one part ends in
    Undefined, as [getPath] does at once. *)
Lemma walk_getPath (w : SlimValue) (path : jstring) :
  walk w (split "." path) = getPath w path.
Proof.
  destruct (split_cons "." path) as (p & ps & E).
  destruct w; cbn [getPath]; try reflexivity; rewrite E; reflexivity.
Qed.

(** X16. [getPath] along a path with a dot in it is [getPath] along what
    is before the dot, followed by [getPath] from there along what is
    after it (from Null, Undefined, a boolean, a number or a text, every
    path leads to Undefined). *)
Theorem getPath_composes (value : SlimValue) (before after : jstring) :
  getPath value (before ++ "." :: after)
  = andThen (getPath value before) (fun w => getPath w after).
Proof.
  rewrite <- !walk_getPath, split_at_sep, walk_app.
  destruct (walk value (split "." before)); [|reflexivity].
  cbn [andThen]. apply walk_getPath.
Qed.



End Paths.

(** ** Utilities: writing at a path *)

Section PathWrites.
















End PathWrites.
